(** * scopefn: Kotlin-style scope functions for C++

    A shallow embedding of [scopefn.hpp] and of the entities used by its
    tests.  The header is a template library, so it is modelled in two
    layers:

    - the compile-time layer: C++ types with their reference kind and
      cv-qualifiers, the signature introspector of namespace
      [scopefn_internal], and the [static_assert]s and overload choices of
      the scope functions.  Instantiating a scope function yields a value
      of type [compiled]: either a diagnostic, or the run-time meaning of
      the instantiated code;
    - the run-time layer: a store of objects addressed by location, so that
      references are locations and aliasing is equality of locations, a log
      of every call made to a callable, and a small state-and-exception
      monad [M] in which the bodies of the scope functions are written.

    Callables are lambdas with a single, non-generic call operator, whose
    trailing parameters may have default arguments: the callables that
    [std::function]'s deduction guide resolves to one signature.  A call
    operator that is a template ([auto] parameters, parameter packs) is
    not modelled. *)

From stdpp Require Import base decidable option list numbers strings pretty.

Local Open Scope string_scope.
Local Open Scope list_scope.

(** ** C++ types *)

(** Object types, without qualifiers. *)
Inductive obj_ty : Type :=
| TVoid
| TBool
| TInt
| TUnsigned
| TString
| TVector (elem : obj_ty)
| TClass (name : string).

Inductive ref_kind : Type := NoRef | LRef | RRef.

Record cv_qual : Type := CV { is_const : bool; is_volatile : bool }.

(** A type as it appears in a signature: [const std::string&] is
    [Ty LRef (CV true false) TString].  For a reference type the
    qualifiers are those of the referred-to type. *)
Record ty : Type := Ty { ty_ref : ref_kind; ty_cv : cv_qual; ty_core : obj_ty }.

#[global] Instance obj_ty_eq_dec : EqDecision obj_ty.
Proof. solve_decision. Defined.
#[global] Instance ref_kind_eq_dec : EqDecision ref_kind.
Proof. solve_decision. Defined.
#[global] Instance cv_qual_eq_dec : EqDecision cv_qual.
Proof. solve_decision. Defined.
#[global] Instance ty_eq_dec : EqDecision ty.
Proof. solve_decision. Defined.

Definition unqualified : cv_qual := CV false false.

(** The plain value type [T]. *)
Definition plain (t : obj_ty) : ty := Ty NoRef unqualified t.

(** [std::remove_reference<T>::type] *)
Definition remove_reference (t : ty) : ty :=
  Ty NoRef (ty_cv t) (ty_core t).

(** [std::remove_cv<T>::type]: only top-level qualifiers go, so a reference
    type is left as it is. *)
Definition remove_cv (t : ty) : ty :=
  match ty_ref t with
  | NoRef => Ty NoRef unqualified (ty_core t)
  | LRef | RRef => t
  end.

(** [std::is_same_v<T, U>] *)
Definition is_same (t u : ty) : bool := bool_decide (t = u).

(** May a parameter declared with type [p] be initialised from an lvalue
    expression of type [arg]?  A by-value parameter is copied from it, an
    lvalue reference binds to it when it drops no qualifier, an rvalue
    reference does not bind to an lvalue.  Conversions between different
    object types are not modelled. *)
Definition cv_le (a b : cv_qual) : bool :=
  implb (is_const a) (is_const b) && implb (is_volatile a) (is_volatile b).

Definition accepts_lvalue (p arg : ty) : bool :=
  match ty_ref p with
  | NoRef => bool_decide (ty_core p = ty_core arg)
  | LRef => bool_decide (ty_core p = ty_core arg) && cv_le (ty_cv arg) (ty_cv p)
  | RRef => false
  end.

(** ** Run-time values and the store *)

(** The entity of [tests/testentities.hpp]. *)
Module testentities.

Record Person : Type := { name : string; location : string; age : Z }.

Definition moveTo (p : Person) (newLocation : string) : Person :=
  {| name := name p; location := newLocation; age := age p |}.

(** [Person::operator==] *)
Definition eqb (p other : Person) : bool :=
  if bool_decide (name p ≠ name other) || bool_decide (location p ≠ location other)
     || bool_decide (age p ≠ age other)
  then false else true.

End testentities.

Inductive value : Type :=
| VVoid
| VBool (b : bool)
| VInt (z : Z)
| VUnsigned (z : Z)
| VString (s : string)
| VVector (l : list Z)
| VPerson (p : testentities.Person).

(** A location names an object; a reference is a location. *)
Abbreviation loc := nat (only parsing).

Abbreviation store := (list value) (only parsing).

(** What a call expression evaluates to: a prvalue, or (for a callable
    whose return type is a reference) the object referred to. *)
Inductive retval : Type :=
| ByValue (v : value)
| ByRef (l : loc).

Inductive exn : Type := Exn (what : string).

(** How a call ends: it returns, it throws, or its behaviour is undefined
    (the body dereferences a past-the-end iterator, say). *)
Inductive completion : Type :=
| Return (r : retval)
| Throw (e : exn)
| Undef.

(** A callable: its declared signature and the behaviour of its call
    operator, given the locations of the objects its arguments designate.
    The last [c_defaults] parameters have default arguments, so a call
    may leave them out; the body gets the arguments that were passed.
    What the callable does with an argument (bind a reference to it, copy
    it into a by-value parameter) belongs to its behaviour.  [c_id] tells
    callables apart in the call log; a copy of a callable keeps it. *)
Record Callable : Type := {
  c_id : nat;
  c_params : list ty;
  c_defaults : nat;
  c_ret : ty;
  c_body : list loc → store → completion * store
}.

(** One entry of the call log: which callable was invoked, on which
    objects. *)
Definition call_event : Type := (nat * list loc)%type.

Record state : Type := { heap : store; calls : list call_event }.

Inductive result (A : Type) : Type :=
| Ok (a : A)
| Raised (e : exn)
| Undefined.
Arguments Ok {A} a.
Arguments Raised {A} e.
Arguments Undefined {A}.

(** Run-time computations: state passing, with exceptions. *)
Definition M (A : Type) : Type := state → result A * state.

Definition ret {A} (a : A) : M A := fun st => (Ok a, st).

Definition bind {A B} (m : M A) (k : A → M B) : M B :=
  fun st =>
    match m st with
    | (Ok a, st') => k a st'
    | (Raised e, st') => (Raised e, st')
    | (Undefined, st') => (Undefined, st')
    end.

Notation "x <- m ;; k" := (bind m (fun x => k))
  (at level 200, m at level 99, k at level 200, right associativity).

(** Reading through a reference; a dangling one is undefined behaviour. *)
Definition load (l : loc) : M value :=
  fun st =>
    match heap st !! l with
    | Some v => (Ok v, st)
    | None => (Undefined, st)
    end.

(** A new object (a temporary, or a named variable) initialised with [v]. *)
Definition alloc (v : value) : M loc :=
  fun st => (Ok (length (heap st)), {| heap := heap st ++ [v]; calls := calls st |}).

(** The state after a call of [L] on [args] that left the store [h]. *)
Definition logged (st : state) (L : Callable) (args : list loc) (h : store) : state :=
  {| heap := h; calls := calls st ++ [(c_id L, args)] |}.

(** The call expression [lambda(args...)]: the call is logged, then the
    body runs on the store. *)
Definition invoke (L : Callable) (args : list loc) : M retval :=
  fun st =>
    match c_body L args (heap st) with
    | (Return r, h) => (Ok r, logged st L args h)
    | (Throw e, h) => (Raised e, logged st L args h)
    | (Undef, h) => (Undefined, logged st L args h)
    end.

(** Writing to an object. *)
Definition store_at (l : loc) (v : value) : M unit :=
  fun st => (Ok tt, {| heap := <[l := v]> (heap st); calls := calls st |}).

(** What a move constructor leaves behind.  A moved-from vector is empty;
    a moved-from string is valid but unspecified by the standard, and
    empty in the library implementations in use; [Person] has the
    implicit move constructor, which moves member by member. *)
Definition moved_from (v : value) : value :=
  match v with
  | VString _ => VString ""
  | VVector _ => VVector []
  | VPerson p =>
      VPerson {| testentities.name := ""; testentities.location := "";
                 testentities.age := testentities.age p |}
  | VVoid | VBool _ | VInt _ | VUnsigned _ => v
  end.

(** Is an object of the stripped type move-constructed from a call result
    of declared type [R]?  It is when [R] is an rvalue reference to a
    non-const type; an lvalue reference, or an rvalue reference to const,
    selects the copy constructor. *)
Definition moves (R : ty) : bool :=
  bool_decide (ty_ref R = RRef) && negb (is_const (ty_cv R)).

(** The store after an object was initialised from the object at [l],
    which held [v], through a call result of declared type [R]. *)
Definition converted_store (R : ty) (l : loc) (v : value) (h : store) : store :=
  if moves R then <[l := moved_from v]> h else h.

(** Initialising an object of a non-reference type from the result of a
    call whose declared return type is [R]: a prvalue is the object; the
    object a returned lvalue reference refers to is copied; the object a
    returned rvalue reference refers to is moved from. *)
Definition to_value (R : ty) (r : retval) : M value :=
  match r with
  | ByValue v => ret v
  | ByRef l =>
      v <- load l ;;
      _ <- (if moves R then store_at l (moved_from v) else ret tt) ;;
      ret v
  end.

(** ** Compile-time results *)

Inductive diagnostic : Type :=
| StaticAssert (msg : string)
| DeductionFailure
| NoMatchingCall
| NoMatchingOperator.

Inductive compiled (A : Type) : Type :=
| Accepted (a : A)
| Rejected (d : diagnostic).
Arguments Accepted {A} a.
Arguments Rejected {A} d.

Definition cbind {A B} (c : compiled A) (k : A → compiled B) : compiled B :=
  match c with
  | Accepted a => k a
  | Rejected d => Rejected d
  end.

Notation "x <~ c ;; k" := (cbind c (fun x => k))
  (at level 200, c at level 99, k at level 200, right associativity).

(** A deduction that fails makes the declaration that needs it ill-formed. *)
Definition deduced {A} (o : option A) : compiled A :=
  match o with
  | Some a => Accepted a
  | None => Rejected DeductionFailure
  end.

(** A failed [static_assert] reports its message. *)
Definition static_assert (b : bool) (msg : string) : compiled unit :=
  if b then Accepted tt else Rejected (StaticAssert msg).

Definition well_formed_call (b : bool) : compiled unit :=
  if b then Accepted tt else Rejected NoMatchingCall.

(** Is [lambda(args...)] well-formed, for lvalue arguments of these
    types?  Parameters with a default argument may be left out. *)
Definition invocable (L : Callable) (args : list ty) : bool :=
  bool_decide (length (c_params L) - c_defaults L ≤ length args
               ∧ length args ≤ length (c_params L))%nat
  && forallb (fun pa => accepts_lvalue (fst pa) (snd pa)) (combine (c_params L) args).

(** ** The signature introspector *)

Module scopefn_internal.

(** [base_type<T>]: [remove_cv] of [remove_reference]. *)
Definition base_type (t : ty) : ty := remove_cv (remove_reference t).

(** A specialisation [std::function<R(Args...)>]. *)
Record std_function : Type := { fn_ret : ty; fn_args : list ty }.

(** [std::function(std::declval<T>())]: the deduction guide reads the
    signature off the call operator. *)
Definition deduce_function (T : Callable) : std_function :=
  {| fn_ret := c_ret T; fn_args := c_params T |}.

(** The member aliases of [FuncType] and [FuncTypeNoArg]. *)
Record func_type : Type := { return_type : ty; argument_type : ty }.

(** [FuncType(std::function<RT(AT)>)]: deducible for one argument only. *)
Definition FuncType (f : std_function) : option func_type :=
  match fn_args f with
  | [AT] => Some {| return_type := fn_ret f; argument_type := AT |}
  | _ => None
  end.

(** [FuncTypeNoArg(std::function<RT(void)>)]: deducible for no argument
    only. *)
Definition FuncTypeNoArg (f : std_function) : option func_type :=
  match fn_args f with
  | [] => Some {| return_type := fn_ret f; argument_type := plain TVoid |}
  | _ => None
  end.

Definition LambdaReflection (T : Callable) : option func_type :=
  match FuncType (deduce_function T) with
  | Some ft =>
      Some {| return_type := base_type (return_type ft);
              argument_type := base_type (argument_type ft) |}
  | None => None
  end.

(** [LambdaReflectionNoArg<T>::return_type] *)
Definition LambdaReflectionNoArg (T : Callable) : option ty :=
  match FuncTypeNoArg (deduce_function T) with
  | Some ft => Some (base_type (return_type ft))
  | None => None
  end.

End scopefn_internal.

Import scopefn_internal.

Definition let_message : string :=
  "Scope function `let` argument type must match context object type".

Definition also_message : string :=
  "Scope function `also` argument type must match context object type".

Definition also_pipe_message : string :=
  "Scope function `also` argument type must match return type which is the context object type".

(** ** The mixin [ScopeFunctions<Base>] *)

Module ScopeFunctions.

Section mixin.

(** The host type, and in each member function [this], the location of
    the host instance: [*static_cast<Base*>(this)] is the object at
    [this], as an lvalue of type [Base].  [run] and [apply] never mention
    [Base] in a check, so they do not depend on it. *)
Variable Base : ty.

(** The return type is [LambdaReflection<L>::return_type], never a
    reference: [return lambda(...)] copies what a returned reference
    refers to. *)
Definition let_ (L : Callable) : compiled (loc → M value) :=
  R <~ deduced (LambdaReflection L) ;;
  _ <~ static_assert (is_same (argument_type R) Base) let_message ;;
  _ <~ well_formed_call (invocable L [Base]) ;;
  Accepted (fun this => r <- invoke L [this] ;; to_value (c_ret L) r).

Definition run (L : Callable) : compiled (loc → M value) :=
  _ <~ deduced (LambdaReflectionNoArg L) ;;
  _ <~ well_formed_call (invocable L []) ;;
  Accepted (fun this => r <- invoke L [] ;; to_value (c_ret L) r).

(** [apply] names no introspection type: all that is checked is the call
    [lambda()] in its body.  It returns [*this]. *)
Definition apply (L : Callable) : compiled (loc → M loc) :=
  _ <~ well_formed_call (invocable L []) ;;
  Accepted (fun this => _ <- invoke L [] ;; ret this).

Definition also (L : Callable) : compiled (loc → M loc) :=
  R <~ deduced (LambdaReflection L) ;;
  _ <~ static_assert (is_same Base (argument_type R)) also_message ;;
  _ <~ well_formed_call (invocable L [Base]) ;;
  Accepted (fun this => _ <- invoke L [this] ;; ret this).

End mixin.

End ScopeFunctions.

(** ** The freestanding scope functions

    Each struct holds its callable in a [std::function] member [fun];
    [ctor] is the constructor together with the instantiation of the class
    template, [operator_call] is [operator()]. *)

Module let_.

Record t : Type := { ARG : ty; RT : ty; fun_ : Callable }.

(** [let(L lambda) : fun(lambda) {}]: the member aliases need
    [LambdaReflection<L>], and [std::function<RT(ARG&)>] is constructible
    from a callable that can be called on an lvalue of type [ARG]. *)
Definition ctor (L : Callable) : compiled t :=
  R <~ deduced (LambdaReflection L) ;;
  _ <~ well_formed_call (invocable L [argument_type R]) ;;
  Accepted {| ARG := argument_type R; RT := return_type R; fun_ := L |}.

(** [RT operator()(ARG& contextObject) { return fun(contextObject); }] *)
Definition operator_call (w : t) (contextObject : loc) : M value :=
  r <- invoke (fun_ w) [contextObject] ;; to_value (c_ret (fun_ w)) r.

End let_.

Module run.

Record t : Type := { RT : ty; fun_ : Callable }.

(** [run(L lambda) : fun(lambda) {}] *)
Definition ctor (L : Callable) : compiled t :=
  R <~ deduced (LambdaReflectionNoArg L) ;;
  _ <~ well_formed_call (invocable L []) ;;
  Accepted {| RT := R; fun_ := L |}.

(** [RT operator()() { return fun(); }] *)
Definition operator_call (w : t) : M value :=
  r <- invoke (fun_ w) [] ;; to_value (c_ret (fun_ w)) r.

End run.

Module with_.

Record t : Type := { RT : ty; fun_ : Callable }.

(** [RT operator()() { return fun(); }] *)
Definition operator_call (w : t) : M value :=
  r <- invoke (fun_ w) [] ;; to_value (c_ret (fun_ w)) r.

(** The constructor body is [std::invoke( *this)]: the callable runs while
    the object is constructed, and the value of that call is dropped. *)
Definition ctor (L : Callable) : compiled (M t) :=
  R <~ deduced (LambdaReflectionNoArg L) ;;
  _ <~ well_formed_call (invocable L []) ;;
  let this := {| RT := R; fun_ := L |} in
  Accepted (_ <- operator_call this ;; ret this).

End with_.

Module also.

Record t : Type := { ARG : ty; fun_ : Callable }.

(** Here [RT] is [void]: [fun] drops whatever the callable returns. *)
Definition ctor (L : Callable) : compiled t :=
  R <~ deduced (LambdaReflection L) ;;
  _ <~ well_formed_call (invocable L [argument_type R]) ;;
  Accepted {| ARG := argument_type R; fun_ := L |}.

(** [ARG& operator()(ARG& contextObject)]: [fun(contextObject);] then
    [return contextObject;] *)
Definition operator_call (w : t) (contextObject : loc) : M loc :=
  _ <- invoke (fun_ w) [contextObject] ;; ret contextObject.

End also.

(** ** The chaining operator *)

(** The left operand of [operator|], at compile time: its value category
    and its type.  The type of an expression is never a reference, so [T]
    is deduced as that type, qualifiers included, by both the [T&] and
    the [T&&] overload. *)
Inductive category : Type := lvalue | rvalue.

Record operand_type : Type := { op_cat : category; op_ty : ty }.

(** The left operand at run time: an object, or a prvalue that has no
    object yet. *)
Inductive operand : Type :=
| AtLoc (l : loc)
| Temp (v : value).

(** Binding the parameter [contextObject]: a [T&] binds to the object, a
    [T&&] binds to the temporary materialised from the prvalue. *)
Definition bind_reference (x : operand) : M loc :=
  match x with
  | AtLoc l => ret l
  | Temp v => alloc v
  end.

(** [operator|(T& contextObject, let<L>&& lambda)] *)
Definition pipe_let_lref (T : ty) (lambda : let_.t) : compiled (loc → M value) :=
  _ <~ static_assert (is_same T (let_.ARG lambda)) let_message ;;
  Accepted (fun contextObject => let_.operator_call lambda contextObject).

(** [operator|(T&& contextObject, let<L>&& lambda)] *)
Definition pipe_let_rref (T : ty) (lambda : let_.t) : compiled (loc → M value) :=
  _ <~ static_assert (is_same T (let_.ARG lambda)) let_message ;;
  Accepted (fun contextObject => let_.operator_call lambda contextObject).

(** [operator|(T& contextObject, run<L>&& lambda)] *)
Definition pipe_run_lref (T : ty) (lambda : run.t) : compiled (loc → M value) :=
  Accepted (fun contextObject => run.operator_call lambda).

(** [operator|(T&& contextObject, run<L>&& lambda)] *)
Definition pipe_run_rref (T : ty) (lambda : run.t) : compiled (loc → M value) :=
  Accepted (fun contextObject => run.operator_call lambda).

(** [operator|(T& contextObject, also<L>&& lambda)] *)
Definition pipe_also_lref (T : ty) (lambda : also.t) : compiled (loc → M loc) :=
  _ <~ static_assert (is_same T (also.ARG lambda)) also_pipe_message ;;
  Accepted (fun contextObject => also.operator_call lambda contextObject).

(** [operator|(T&& contextObject, also<L>&& lambda)] *)
Definition pipe_also_rref (T : ty) (lambda : also.t) : compiled (loc → M loc) :=
  _ <~ static_assert (is_same T (also.ARG lambda)) also_pipe_message ;;
  Accepted (fun contextObject => also.operator_call lambda contextObject).

(** The right operand of a chain link, as written at the call site. *)
Inductive scope_expr : Type :=
| e_let (L : Callable)
| e_run (L : Callable)
| e_also (L : Callable)
| e_with (L : Callable).

Definition callee (e : scope_expr) : Callable :=
  match e with
  | e_let L | e_run L | e_also L | e_with L => L
  end.

(** Overload resolution for [lhs | rhs], and the meaning of the chosen
    overload: the type and category of the result, and the run-time step
    from the left operand to the result.  No overload takes a [with], and
    none can be deduced for an operand of type [void]. *)
Definition operator_pipe (lhs : operand_type) (rhs : scope_expr)
  : compiled (operand_type * (operand → M operand)) :=
  let T := op_ty lhs in
  if bool_decide (ty_core T = TVoid) then Rejected NoMatchingOperator else
  match rhs with
  | e_let L =>
      w <~ let_.ctor L ;;
      f <~ match op_cat lhs with
           | lvalue => pipe_let_lref T w
           | rvalue => pipe_let_rref T w
           end ;;
      Accepted ({| op_cat := rvalue; op_ty := let_.RT w |},
                fun x => c <- bind_reference x ;; v <- f c ;; ret (Temp v))
  | e_run L =>
      w <~ run.ctor L ;;
      f <~ match op_cat lhs with
           | lvalue => pipe_run_lref T w
           | rvalue => pipe_run_rref T w
           end ;;
      Accepted ({| op_cat := rvalue; op_ty := run.RT w |},
                fun x => c <- bind_reference x ;; v <- f c ;; ret (Temp v))
  | e_also L =>
      w <~ also.ctor L ;;
      f <~ match op_cat lhs with
           | lvalue => pipe_also_lref T w
           | rvalue => pipe_also_rref T w
           end ;;
      Accepted ({| op_cat := lvalue; op_ty := also.ARG w |},
                fun x => c <- bind_reference x ;; l <- f c ;; ret (AtLoc l))
  | e_with L =>
      _ <~ with_.ctor L ;;
      Rejected NoMatchingOperator
  end.

(** A chain [x | f1 | f2 | ...]: the operator associates to the left. *)
Inductive pipeline : Type :=
| Var (T : ty) (l : loc)
| Tmp (T : ty) (v : value)
| Pipe (p : pipeline) (rhs : scope_expr).

(** Compiling a chain type-checks every link before anything runs, and
    yields the type of the whole expression and its run-time meaning. *)
Fixpoint compile (p : pipeline) : compiled (operand_type * M operand) :=
  match p with
  | Var T l => Accepted ({| op_cat := lvalue; op_ty := T |}, ret (AtLoc l))
  | Tmp T v => Accepted ({| op_cat := rvalue; op_ty := T |}, ret (Temp v))
  | Pipe p rhs =>
      lhs <~ compile p ;;
      step <~ operator_pipe (fst lhs) rhs ;;
      Accepted (fst step, x <- snd lhs ;; snd step x)
  end.

(** Using the value of an expression, as in [unsigned num = chain;]. *)
Definition value_of (x : operand) : M value :=
  match x with
  | AtLoc l => load l
  | Temp v => ret v
  end.

(** ** The reference for a chain: the same callables applied by hand

    The chain is written as a sequence of statements over named
    variables: [auto v1 = f1(v0); f2(v1); auto v3 = f3(); ...], every
    result that is kept becoming the input of the next statement. *)

Inductive chain_start : Type :=
| StartVar (l : loc)
| StartTmp (v : value).

Definition manual_start (s : chain_start) : M loc :=
  match s with
  | StartVar l => ret l
  | StartTmp v => alloc v
  end.

Fixpoint manual (cur : loc) (steps : list scope_expr) : M loc :=
  match steps with
  | [] => ret cur
  | e_let f :: rest =>
      r <- invoke f [cur] ;; v <- to_value (c_ret f) r ;; next <- alloc v ;; manual next rest
  | e_run f :: rest =>
      r <- invoke f [] ;; v <- to_value (c_ret f) r ;; next <- alloc v ;; manual next rest
  | e_also f :: rest =>
      _ <- invoke f [cur] ;; manual cur rest
  | e_with f :: rest =>
      r <- invoke f [] ;; _ <- to_value (c_ret f) r ;; manual cur rest
  end.

Definition manual_value (s : chain_start) (steps : list scope_expr) : M value :=
  v0 <- manual_start s ;; l <- manual v0 steps ;; load l.

(** The start and the links of a chain, in the order they are written. *)
Fixpoint chain_start_of (p : pipeline) : chain_start :=
  match p with
  | Var _ l => StartVar l
  | Tmp _ v => StartTmp v
  | Pipe p _ => chain_start_of p
  end.

Fixpoint links (p : pipeline) : list scope_expr :=
  match p with
  | Var _ _ | Tmp _ _ => []
  | Pipe p rhs => links p ++ [rhs]
  end.

(** The chain started on a named variable. *)
Definition chain (T : ty) (l : loc) (es : list scope_expr) : pipeline :=
  fold_left Pipe es (Var T l).

(** ** The callables of [tests/scopefunctiontests.cpp]

    A lambda that captures [self = &x] is a callable built from the
    location of [x].  The last case of each body is never reached by a
    call that type-checks. *)

Module tests.

Import testentities.

Local Open Scope Z_scope.

Definition vector_int : obj_ty := TVector TInt.
Definition person_t : obj_ty := TClass "Person".

Definition lref (t : obj_ty) : ty := Ty LRef unqualified t.

(** Arithmetic on [unsigned] wraps around. *)
Definition to_unsigned (z : Z) : Z := z mod 2 ^ 32.

(** [*std::max_element(it.begin(), it.end())]: on an empty range
    [max_element] returns the end iterator, and there is nothing to
    dereference. *)
Definition max_element (l : list Z) : option Z :=
  match l with
  | [] => None
  | x :: rest => Some (fold_right Z.max x rest)
  end.

(** [[](std::vector<int>& it) { it.push_back(4); return it; }] *)
Definition push_back_4 : Callable :=
  {| c_id := 1; c_params := [lref vector_int]; c_defaults := 0;
     c_ret := plain vector_int;
     c_body := fun args h =>
       match args with
       | [it] =>
           match h !! it with
           | Some (VVector l) =>
               (Return (ByValue (VVector (l ++ [4]))), <[it := VVector (l ++ [4])]> h)
           | _ => (Return (ByValue VVoid), h)
           end
       | _ => (Return (ByValue VVoid), h)
       end |}.

(** [[](std::vector<int>& it) -> unsigned { return *std::max_element(...); }] *)
Definition max_of : Callable :=
  {| c_id := 2; c_params := [lref vector_int]; c_defaults := 0;
     c_ret := plain TUnsigned;
     c_body := fun args h =>
       match args with
       | [it] =>
           match h !! it with
           | Some (VVector l) =>
               match max_element l with
               | Some z => (Return (ByValue (VUnsigned (to_unsigned z))), h)
               | None => (Undef, h)
               end
           | _ => (Return (ByValue VVoid), h)
           end
       | _ => (Return (ByValue VVoid), h)
       end |}.

(** [[](unsigned& it) { it = it * 2; }] *)
Definition double_it : Callable :=
  {| c_id := 3; c_params := [lref TUnsigned]; c_defaults := 0; c_ret := plain TVoid;
     c_body := fun args h =>
       match args with
       | [it] =>
           match h !! it with
           | Some (VUnsigned z) =>
               (Return (ByValue VVoid), <[it := VUnsigned (to_unsigned (z * 2))]> h)
           | _ => (Return (ByValue VVoid), h)
           end
       | _ => (Return (ByValue VVoid), h)
       end |}.

(** A statement block that updates the [Person] at [l]. *)
Definition update_person (l : loc) (f : Person → Person) (h : store) : completion * store :=
  match h !! l with
  | Some (VPerson p) => (Return (ByValue VVoid), <[l := VPerson (f p)]> h)
  | _ => (Return (ByValue VVoid), h)
  end.

Definition clear_name (p : Person) : Person :=
  {| name := ""; location := location p; age := age p |}.

Definition clear_location (p : Person) : Person :=
  {| name := name p; location := ""; age := age p |}.

Definition set_age (n : Z) (p : Person) : Person :=
  {| name := name p; location := location p; age := to_unsigned n |}.

(** [[self = &person, num] { self->age = num; }] *)
Definition capture_set_age (self : loc) (num : Z) : Callable :=
  {| c_id := 4; c_params := []; c_defaults := 0; c_ret := plain TVoid;
     c_body := fun _ h => update_person self (set_age num) h |}.

(** [[self = &person] { self->name.clear(); }] *)
Definition capture_clear_name (self : loc) : Callable :=
  {| c_id := 5; c_params := []; c_defaults := 0; c_ret := plain TVoid;
     c_body := fun _ h => update_person self clear_name h |}.

(** [[](Person& it) { it.location.clear(); }] *)
Definition it_clear_location : Callable :=
  {| c_id := 6; c_params := [lref person_t]; c_defaults := 0; c_ret := plain TVoid;
     c_body := fun args h =>
       match args with
       | [it] => update_person it clear_location h
       | _ => (Return (ByValue VVoid), h)
       end |}.

(** [[self = &hello] { self->replace(0, 1, "y"); }] *)
Definition capture_replace_first (self : loc) : Callable :=
  {| c_id := 7; c_params := []; c_defaults := 0; c_ret := plain TVoid;
     c_body := fun _ h =>
       match h !! self with
       | Some (VString (String _ rest)) =>
           (Return (ByValue VVoid), <[self := VString ("y" ++ rest)]> h)
       | Some (VString EmptyString) =>
           (Return (ByValue VVoid), <[self := VString "y"]> h)
       | _ => (Return (ByValue VVoid), h)
       end |}.

Definition alice : Person := {| name := "Alice"; location := "London"; age := 20 |}.

(** The chain of [MixingFunctionsTest]. *)
Definition mixing_chain : pipeline :=
  Pipe (Pipe (Pipe (Tmp (plain vector_int) (VVector [1; 2; 3]))
                   (e_let push_back_4))
             (e_let max_of))
       (e_also double_it).

(** Callables beyond the tests, used to probe the scope functions. *)

(** [[](Person& it) -> Person& { it.age = 30; return it; }] *)
Definition birthday_ref : Callable :=
  {| c_id := 8; c_params := [lref person_t]; c_defaults := 0; c_ret := lref person_t;
     c_body := fun args h =>
       match args with
       | [it] => (Return (ByRef it), snd (update_person it (set_age 30) h))
       | _ => (Return (ByValue VVoid), h)
       end |}.

(** [[](Person& it) { it.name.clear(); throw std::runtime_error("boom"); }] *)
Definition clear_then_throw : Callable :=
  {| c_id := 9; c_params := [lref person_t]; c_defaults := 0; c_ret := plain TVoid;
     c_body := fun args h =>
       match args with
       | [it] => (Throw (Exn "boom"), snd (update_person it clear_name h))
       | _ => (Return (ByValue VVoid), h)
       end |}.

(** [[] { return 5; }] *)
Definition five : Callable :=
  {| c_id := 10; c_params := []; c_defaults := 0; c_ret := plain TInt;
     c_body := fun _ h => (Return (ByValue (VInt 5)), h) |}.

(** [[](int& it) { it = 0; }] *)
Definition zero_int : Callable :=
  {| c_id := 11; c_params := [lref TInt]; c_defaults := 0; c_ret := plain TVoid;
     c_body := fun args h =>
       match args with
       | [it] => (Return (ByValue VVoid), <[it := VInt 0]> h)
       | _ => (Return (ByValue VVoid), h)
       end |}.

Definition rvalue_ref (t : obj_ty) : ty := Ty RRef unqualified t.



(** [[](std::vector<int>& it) -> std::vector<int>&& { return std::move(it); }] *)
Definition move_it : Callable :=
  {| c_id := 13; c_params := [lref vector_int]; c_defaults := 0;
     c_ret := rvalue_ref vector_int;
     c_body := fun args h =>
       match args with
       | [it] => (Return (ByRef it), h)
       | _ => (Return (ByValue VVoid), h)
       end |}.

(** [[](int x = 0) { }] *)
Definition defaulted_int : Callable :=
  {| c_id := 14; c_params := [plain TInt]; c_defaults := 1; c_ret := plain TVoid;
     c_body := fun _ h => (Return (ByValue VVoid), h) |}.

(** [[](Person& it = g) { it.location.clear(); }], for a [Person g] at
    [g]. *)
Definition defaulted_person (g : loc) : Callable :=
  {| c_id := 15; c_params := [lref person_t]; c_defaults := 1; c_ret := plain TVoid;
     c_body := fun args h =>
       match args with
       | [] => update_person g clear_location h
       | [it] => update_person it clear_location h
       | _ => (Return (ByValue VVoid), h)
       end |}.

(** [[](int a = 0, int b = 0) { }] *)
Definition defaulted_pair : Callable :=
  {| c_id := 16; c_params := [plain TInt; plain TInt]; c_defaults := 2;
     c_ret := plain TVoid;
     c_body := fun _ h => (Return (ByValue VVoid), h) |}.

(** [[](int& it) { return std::to_string(it); }], as in [LetFunctionTest] *)
Definition to_string_fn (v : value) : value :=
  match v with
  | VInt z => VString (pretty z)
  | _ => VVoid
  end.

Definition to_string : Callable :=
  {| c_id := 17; c_params := [lref TInt]; c_defaults := 0; c_ret := plain TString;
     c_body := fun args h =>
       match args with
       | [it] =>
           match h !! it with
           | Some v => (Return (ByValue (to_string_fn v)), h)
           | None => (Return (ByValue VVoid), h)
           end
       | _ => (Return (ByValue VVoid), h)
       end |}.

(** [[](std::string& it) -> unsigned { return it.size(); }] *)
Definition size_fn (v : value) : value :=
  match v with
  | VString s => VUnsigned (to_unsigned (Z.of_nat (String.length s)))
  | _ => VVoid
  end.

Definition size_of : Callable :=
  {| c_id := 18; c_params := [lref TString]; c_defaults := 0; c_ret := plain TUnsigned;
     c_body := fun args h =>
       match args with
       | [it] =>
           match h !! it with
           | Some v => (Return (ByValue (size_fn v)), h)
           | None => (Return (ByValue VVoid), h)
           end
       | _ => (Return (ByValue VVoid), h)
       end |}.

Definition empty_state : state := {| heap := []; calls := [] |}.

Definition one_person : state := {| heap := [VPerson alice]; calls := [] |}.

End tests.

(** ** The convenience macros

    [RUN_(x)] and [APPLY_(x)] expand to [[self = &x]()], [LET_(x)] and
    [ALSO_(x)] to [[](decltype(x)& it)]; the block [y] that follows is the
    body of the lambda.  The lambda has no trailing return type, so its
    return type is deduced from the block and is never a reference.  A
    block is given by its return type and its behaviour on the object
    that [self] points to or [it] refers to; [id] names the lambda in the
    call log. *)

Module scopefnmacros.

Abbreviation block := (loc → store → completion * store) (only parsing).

(** [decltype(x)&]: a reference to a reference collapses to an lvalue
    reference. *)
Definition decltype_ref (x : ty) : ty := Ty LRef (ty_cv x) (ty_core x).

(** [RUN_(x) y] *)
Definition RUN_ (id : nat) (x : loc) (ret : obj_ty) (y : block) : Callable :=
  {| c_id := id; c_params := []; c_defaults := 0; c_ret := plain ret;
     c_body := fun _ h => y x h |}.

(** [RUN(x,y)] is [run(RUN_(x) y)]. *)
Definition RUN (id : nat) (x : loc) (ret : obj_ty) (y : block) : scope_expr :=
  e_run (RUN_ id x ret y).

(** [LET_(x) y] *)
Definition LET_ (id : nat) (x : ty) (ret : obj_ty) (y : block) : Callable :=
  {| c_id := id; c_params := [decltype_ref x]; c_defaults := 0; c_ret := plain ret;
     c_body := fun args h =>
       match args with
       | [it] => y it h
       | _ => (Return (ByValue VVoid), h)
       end |}.

(** [LET(x,y)] is [let(LET_(x) y)]. *)
Definition LET (id : nat) (x : ty) (ret : obj_ty) (y : block) : scope_expr :=
  e_let (LET_ id x ret y).

(** [ALSO_(x) y] *)
Definition ALSO_ (id : nat) (x : ty) (ret : obj_ty) (y : block) : Callable :=
  {| c_id := id; c_params := [decltype_ref x]; c_defaults := 0; c_ret := plain ret;
     c_body := fun args h =>
       match args with
       | [it] => y it h
       | _ => (Return (ByValue VVoid), h)
       end |}.

(** [ALSO(x,y)] is [also(ALSO_(x) y)]. *)
Definition ALSO (id : nat) (x : ty) (ret : obj_ty) (y : block) : scope_expr :=
  e_also (ALSO_ id x ret y).

(** [APPLY_(x) y] *)
Definition APPLY_ (id : nat) (x : loc) (ret : obj_ty) (y : block) : Callable :=
  {| c_id := id; c_params := []; c_defaults := 0; c_ret := plain ret;
     c_body := fun _ h => y x h |}.

(** [APPLY(x,y)] is [apply(APPLY_(x) y)]; the tests write it after a dot,
    [person.APPLY(person, {...})], which makes it the mixin's [apply]. *)
Definition APPLY (id : nat) (x : loc) (ret : obj_ty) (y : block)
  : compiled (loc → M loc) :=
  ScopeFunctions.apply (APPLY_ id x ret y).

End scopefnmacros.

(** ** The test entity with children

    A second version of the test entity holds a vector of children;
    its [operator==] compares the number of children only. *)

Module testentities_children.

Local Unset Elimination Schemes.

Inductive Person : Type :=
  MkPerson (name : string) (location : string) (children : list Person) (age : Z).

Local Set Elimination Schemes.

Definition name (p : Person) : string :=
  match p with MkPerson n _ _ _ => n end.

Definition location (p : Person) : string :=
  match p with MkPerson _ l _ _ => l end.

Definition children (p : Person) : list Person :=
  match p with MkPerson _ _ c _ => c end.

Definition age (p : Person) : Z :=
  match p with MkPerson _ _ _ a => a end.

Definition moveTo (p : Person) (newLocation : string) : Person :=
  MkPerson (name p) newLocation (children p) (age p).

(** [Person::operator==] *)
Definition eqb (p other : Person) : bool :=
  if bool_decide (name p ≠ name other) || bool_decide (location p ≠ location other)
     || bool_decide (age p ≠ age other)
     || bool_decide (length (children p) ≠ length (children other))
  then false else true.

End testentities_children.

(** ** Predicates used in the statements *)

(** Running [m] adds exactly one call to the log, a call of [L]. *)
Definition invokes_once {A} (L : Callable) (m : M A) : Prop :=
  ∀ st, ∃ args, calls (snd (m st)) = calls st ++ [(c_id L, args)].

(** The arguments a chain link passes to its callable, for the context
    object at [c]. *)
Definition link_args (rhs : scope_expr) (c : loc) : list loc :=
  match rhs with
  | e_let _ | e_also _ => [c]
  | e_run _ | e_with _ => []
  end.

(** The run-time content of an accepted chain link, on the context object
    at [c]: [let] and [run] give a prvalue, [also] gives the object back. *)
Definition link_run (rhs : scope_expr) (c : loc) : M operand :=
  match rhs with
  | e_let L => v <- (r <- invoke L [c] ;; to_value (c_ret L) r) ;; ret (Temp v)
  | e_run L => v <- (r <- invoke L [] ;; to_value (c_ret L) r) ;; ret (Temp v)
  | e_also L => l <- (_ <- invoke L [c] ;; ret c) ;; ret (AtLoc l)
  | e_with L => ret (AtLoc c)
  end.

(** When a point of the chain and the same point of the hand-written
    sequence agree: the same object in the same state, or a prvalue of the
    chain that the sequence already holds in its newest variable, or the
    same failure in the same state. *)
Definition agree (chain_side : result operand * state) (manual_side : result loc * state) : Prop :=
  match chain_side, manual_side with
  | (Ok (AtLoc l), s), (Ok l', s') => l = l' ∧ s = s'
  | (Ok (Temp v), s), (Ok l', s') =>
      l' = length (heap s) ∧ s' = {| heap := heap s ++ [v]; calls := calls s |}
  | (Raised e, s), (Raised e', s') => e = e' ∧ s = s'
  | (Undefined, s), (Undefined, s') => s = s'
  | _, _ => False
  end.

(** Running [m] calls the callables of the links [es], in order, each on
    the object at [l] and on nothing else, and stops early only when a
    call fails. *)
Definition observes (l : loc) (es : list scope_expr) (m : M operand) : Prop :=
  ∀ st, ∃ n,
    calls (snd (m st)) = calls st ++ take n (map (fun e => (c_id (callee e), [l])) es)
    ∧ (∀ x, fst (m st) = Ok x → (length es ≤ n)%nat).

(** Was the instantiation accepted? *)
Definition accepted {A} (c : compiled A) : bool :=
  match c with
  | Accepted _ => true
  | Rejected _ => false
  end.

(** The chain started on a temporary. *)
Definition chain_on_temporary (T : ty) (v : value) (es : list scope_expr) : pipeline :=
  fold_left Pipe es (Tmp T v).

(** The callables of the links of a chain, by their ids, in the order the
    links are written. *)
Definition link_ids (p : pipeline) : list nat :=
  map (fun e => c_id (callee e)) (links p).

(** [L] computes [f] of its argument and touches nothing:
    [[](T& it) { return f(it); }]. *)
Definition computes (L : Callable) (f : value → value) : Prop :=
  ∀ (l : loc) (h : store) (v : value),
    h !! l = Some v → c_body L [l] h = (Return (ByValue (f v)), h).

(** * Properties *)

(** ** Types and the introspector *)

Lemma base_type_plain (t : ty) : base_type t = plain (ty_core t).
Proof. reflexivity. Qed.

Lemma base_type_idem (t : ty) : base_type (base_type t) = base_type t.
Proof. reflexivity. Qed.

Lemma LambdaReflection_Some (L : Callable) (R : func_type) :
  LambdaReflection L = Some R ↔
  ∃ p, c_params L = [p] ∧
       R = {| return_type := base_type (c_ret L); argument_type := base_type p |}.
Proof.
  unfold LambdaReflection, FuncType, deduce_function; simpl.
  destruct (c_params L) as [|p [|q ps]]; split.
  all: try (intros [p' [Hp _]]; discriminate Hp).
  all: try discriminate.
  - intros [= <-]. by exists p.
  - intros [p' [[= <-] ->]]. reflexivity.
Qed.

Lemma LambdaReflectionNoArg_Some (L : Callable) (R : ty) :
  LambdaReflectionNoArg L = Some R ↔ c_params L = [] ∧ R = base_type (c_ret L).
Proof.
  unfold LambdaReflectionNoArg, FuncTypeNoArg, deduce_function; simpl.
  destruct (c_params L); split; try discriminate.
  - by intros [= <-].
  - by intros [_ ->].
  - by intros [? _].
Qed.

Lemma LambdaReflectionNoArg_None (L : Callable) :
  c_params L ≠ [] → LambdaReflectionNoArg L = None.
Proof.
  unfold LambdaReflectionNoArg, FuncTypeNoArg, deduce_function; simpl.
  by destruct (c_params L).
Qed.

Lemma is_same_true (t u : ty) : is_same t u = true ↔ t = u.
Proof. unfold is_same. apply bool_decide_eq_true. Qed.

Lemma invocable_nil (L : Callable) :
  invocable L [] = true ↔ (length (c_params L) ≤ c_defaults L)%nat.
Proof.
  unfold invocable.
  replace (combine (c_params L) []) with (@nil (ty * ty)) by by destruct (c_params L).
  simpl. rewrite andb_true_r, bool_decide_eq_true. simpl. lia.
Qed.

Lemma invocable_no_params (L : Callable) : c_params L = [] → invocable L [] = true.
Proof. intros H. apply invocable_nil. rewrite H. simpl. lia. Qed.

(** ** Running a call *)

Lemma invoke_Return L args st r h :
  c_body L args (heap st) = (Return r, h) →
  invoke L args st = (Ok r, logged st L args h).
Proof. unfold invoke. by intros ->. Qed.

Lemma invoke_Throw L args st e h :
  c_body L args (heap st) = (Throw e, h) →
  invoke L args st = (Raised e, logged st L args h).
Proof. unfold invoke. by intros ->. Qed.

Lemma bind_Raised {A B} (m : M A) (k : A → M B) st e st' :
  m st = (Raised e, st') → (x <- m ;; k x) st = (Raised e, st').
Proof. unfold bind. by intros ->. Qed.

Lemma bind_Undefined {A B} (m : M A) (k : A → M B) st st' :
  m st = (Undefined, st') → (x <- m ;; k x) st = (Undefined, st').
Proof. unfold bind. by intros ->. Qed.

Lemma bind_Ok {A B} (m : M A) (k : A → M B) st a st' :
  m st = (Ok a, st') → (x <- m ;; k x) st = k a st'.
Proof. unfold bind. by intros ->. Qed.

(** What a scope function that returns the lambda result hands back, given
    how the call of the callable ended: the value returned, a copy of the
    object a returned reference refers to, or the exception. *)
Lemma to_value_calls R r st : calls (snd (to_value R r st)) = calls st.
Proof.
  destruct r as [v|l]; simpl; [done|]. unfold bind, load, store_at, ret.
  destruct (heap st !! l); [|done]. by destruct (moves R).
Qed.


(** A returned reference to the object at [l], which holds [v]. *)
Lemma to_value_ByRef R l v st :
  heap st !! l = Some v →
  to_value R (ByRef l) st =
    (Ok v, {| heap := converted_store R l v (heap st); calls := calls st |}).
Proof.
  intros Hl. simpl. unfold bind, load, store_at, ret, converted_store. rewrite Hl.
  destruct (moves R); [done|]. by destruct st.
Qed.

Lemma returning_call_calls L args R st :
  calls (snd ((r <- invoke L args ;; to_value R r) st)) = calls st ++ [(c_id L, args)].
Proof.
  unfold bind, invoke. destruct (c_body L args (heap st)) as [[r|e|] h]; try done.
  by rewrite to_value_calls.
Qed.


(** ** The mixin *)




(** [LetFunctionTest], first part: the callable sees the host and its
    writes stay on it. *)
Example let_moves_alice :
  ∃ m, ScopeFunctions.let_ (plain tests.person_t) tests.birthday_ref = Accepted m ∧
       m 0 tests.one_person =
         (Ok (VPerson (tests.set_age 30%Z tests.alice)),
          {| heap := [VPerson (tests.set_age 30%Z tests.alice)];
             calls := [(8, [0])] |}).
Proof. eexists; split; reflexivity. Qed.

(** Taking apart an instantiation that was accepted. *)
Ltac accepted_inv H :=
  repeat match type of H with
  | context [deduced ?o] => destruct o eqn:?; simpl in H
  | context [static_assert ?b _] => destruct b eqn:?; simpl in H
  | context [well_formed_call ?b] => destruct b eqn:?; simpl in H
  | context [bool_decide ?P] => destruct (bool_decide P) eqn:?; simpl in H
  | context [match op_cat ?l with _ => _ end] => destruct (op_cat l) eqn:?; simpl in H
  end;
  try discriminate H.

(** Unfolding the monad down to the call of the callable's body. *)
Ltac run_monad :=
  repeat (progress (unfold bind, bind_reference, value_of, to_value, ret, alloc,
                    load, invoke; simpl)).

Lemma discarding_call {A} L args (a : A) st :
  (_ <- invoke L args ;; ret a) st =
    match c_body L args (heap st) with
    | (Return _, h) => (Ok a, logged st L args h)
    | (Throw e, h) => (Raised e, logged st L args h)
    | (Undef, h) => (Undefined, logged st L args h)
    end.
Proof. unfold bind, invoke. by destruct (c_body L args (heap st)) as [[r|e|] h]. Qed.

(** C2. [apply] and [also] of the mixin, [operator()] of the freestanding
    [also] and the chaining operator on an [also] return the very
    location of the context object, whatever the callable returns: its
    return value (even a dangling reference) is never looked at.  On a
    prvalue left operand the context object is the temporary the operand
    is materialised into, and the reference returned is to that object. *)
Theorem self_returning_scope_functions_alias :
  (∀ L, invocable L [] = true →
     ∃ m, ScopeFunctions.apply L = Accepted m ∧
       ∀ this st r h, c_body L [] (heap st) = (Return r, h) →
         m this st = (Ok this, logged st L [] h))
  ∧ (∀ Base L R,
       LambdaReflection L = Some R → argument_type R = Base →
       invocable L [Base] = true →
       ∃ m, ScopeFunctions.also Base L = Accepted m ∧
         ∀ this st r h, c_body L [this] (heap st) = (Return r, h) →
           m this st = (Ok this, logged st L [this] h))
  ∧ (∀ w contextObject st r h,
       c_body (also.fun_ w) [contextObject] (heap st) = (Return r, h) →
       also.operator_call w contextObject st =
         (Ok contextObject, logged st (also.fun_ w) [contextObject] h))
  ∧ (∀ cat T L R,
       LambdaReflection L = Some R → argument_type R = T →
       invocable L [T] = true → ty_core T ≠ TVoid →
       ∃ step,
         operator_pipe {| op_cat := cat; op_ty := T |} (e_also L)
           = Accepted ({| op_cat := lvalue; op_ty := T |}, step) ∧
         (∀ l st r h, c_body L [l] (heap st) = (Return r, h) →
            step (AtLoc l) st = (Ok (AtLoc l), logged st L [l] h)) ∧
         (∀ v st r h,
            c_body L [length (heap st)] (heap st ++ [v]) = (Return r, h) →
            step (Temp v) st =
              (Ok (AtLoc (length (heap st))), logged st L [length (heap st)] h))).
Proof.
  repeat split.
  - intros L Hcall. unfold ScopeFunctions.apply. rewrite Hcall. simpl.
    eexists; split; [reflexivity|]. intros this st r h Hb. cbv beta.
    by rewrite discarding_call, Hb.
  - intros Base L R HR Harg Hcall. unfold ScopeFunctions.also.
    rewrite HR. simpl. rewrite Harg. unfold is_same.
    rewrite bool_decide_eq_true_2 by done. simpl. rewrite Hcall. simpl.
    eexists; split; [reflexivity|]. intros this st r h Hb. cbv beta.
    by rewrite discarding_call, Hb.
  - intros w c st r h Hb. unfold also.operator_call.
    by rewrite discarding_call, Hb.
  - intros cat T L R HR Harg Hcall Hvoid. unfold operator_pipe. simpl.
    rewrite bool_decide_eq_false_2 by done.
    unfold also.ctor. rewrite HR. simpl. rewrite Harg, Hcall. simpl.
    assert (Hpipe : ∀ f, (f = pipe_also_lref ∨ f = pipe_also_rref) →
              f T {| also.ARG := T; also.fun_ := L |} =
              Accepted (also.operator_call {| also.ARG := T; also.fun_ := L |})).
    { intros f [-> | ->]; unfold pipe_also_lref, pipe_also_rref, is_same; simpl;
        by rewrite bool_decide_eq_true_2. }
    destruct cat; rewrite Hpipe by auto; simpl.
    all: eexists; split; [reflexivity|]; split.
    all: intros x st r h Hb; unfold also.operator_call; run_monad;
           by rewrite Hb.
Qed.

Lemma self_returning_scope_functions_alias_witness :
  (∃ m, ScopeFunctions.apply (tests.capture_clear_name 0) = Accepted m ∧
        m 0 tests.one_person =
          (Ok 0, logged tests.one_person (tests.capture_clear_name 0) []
                       [VPerson (tests.clear_name tests.alice)]))
  ∧ (∃ m, ScopeFunctions.also (plain tests.person_t) tests.birthday_ref = Accepted m ∧
        m 0 tests.one_person =
          (Ok 0, logged tests.one_person tests.birthday_ref [0]
                       [VPerson (tests.set_age 30%Z tests.alice)]))
  ∧ (∃ step,
        operator_pipe {| op_cat := rvalue; op_ty := plain TUnsigned |} (e_also tests.double_it)
          = Accepted ({| op_cat := lvalue; op_ty := plain TUnsigned |}, step) ∧
        step (Temp (VUnsigned 4%Z)) tests.empty_state =
          (Ok (AtLoc 0), logged tests.empty_state tests.double_it [0] [VUnsigned 8%Z])).
Proof.
  destruct self_returning_scope_functions_alias as (Happly & Halso & _ & Hpipe).
  split; [|split].
  - destruct (Happly (tests.capture_clear_name 0) eq_refl)
      as (m & Hm & Hrun).
    exists m. split; [exact Hm|].
    apply (Hrun 0 tests.one_person (ByValue VVoid)). reflexivity.
  - destruct (Halso (plain tests.person_t) tests.birthday_ref
                {| return_type := plain tests.person_t;
                   argument_type := plain tests.person_t |}
                eq_refl eq_refl eq_refl) as (m & Hm & Hrun).
    exists m. split; [exact Hm|].
    apply (Hrun 0 tests.one_person (ByRef 0)). reflexivity.
  - destruct (Hpipe rvalue (plain TUnsigned) tests.double_it
                {| return_type := plain TVoid; argument_type := plain TUnsigned |}
                eq_refl eq_refl eq_refl) as (step & Hs & _ & Htmp).
    { discriminate. }
    exists step. split; [exact Hs|].
    apply (Htmp (VUnsigned 4%Z) tests.empty_state (ByValue VVoid)). reflexivity.
Defined.

(** ** One call per application *)

Lemma returning_call_once L args R :
  invokes_once L (r <- invoke L args ;; to_value R r).
Proof. intros st. exists args. apply returning_call_calls. Qed.


Lemma after_bind_reference {A} L (x : operand) (k : loc → M A) :
  (∀ c, invokes_once L (k c)) → invokes_once L (c <- bind_reference x ;; k c).
Proof.
  intros Hk st. destruct x as [l|v]; unfold bind, bind_reference, ret, alloc.
  - apply Hk.
  - destruct (Hk (length (heap st))
                {| heap := heap st ++ [v]; calls := calls st |}) as [args Hargs].
    exists args. exact Hargs.
Qed.

Lemma then_wrap_once {A B} L (m : M A) (f : A → B) :
  invokes_once L m → invokes_once L (a <- m ;; ret (f a)).
Proof.
  intros Hm st. destruct (Hm st) as [args Hargs]. exists args.
  unfold bind, ret. by destruct (m st) as [[a|e|] st'].
Qed.



(** Nothing is remembered between applications: applying again calls again. *)
Lemma invokes_once_twice {A} L (m : M A) st a st1 :
  invokes_once L m → m st = (Ok a, st1) →
  ∃ args1 args2,
    calls (snd ((_ <- m ;; m) st)) = calls st ++ [(c_id L, args1); (c_id L, args2)].
Proof.
  intros Hm Hst. destruct (Hm st) as [args1 H1]. destruct (Hm st1) as [args2 H2].
  exists args1, args2. unfold bind. rewrite Hst in *. simpl in H1.
  rewrite H2, H1, <- app_assoc. reflexivity.
Qed.

(** ** Compile-time checks *)

(** A type that equals a [base_type] is its own [base_type]: comparing the
    deduced parameter type with [T] is at least as strict as comparing it
    with [base_type T]. *)
Lemma differs_from_base_type (a T : ty) (p : ty) :
  a = base_type p → a ≠ base_type T → a ≠ T.
Proof. intros -> Hne Heq. apply Hne. rewrite <- Heq. reflexivity. Qed.

Lemma argument_type_differs L R T :
  LambdaReflection L = Some R → argument_type R ≠ base_type T → argument_type R ≠ T.
Proof.
  intros HR Hne. apply LambdaReflection_Some in HR as (p & _ & ->).
  by apply (differs_from_base_type _ _ p).
Qed.

(** C6. When the qualifier-stripped parameter type deduced for the callable
    differs from the qualifier-stripped type of the host or context object,
    [let] and [also] are rejected at compile time with the message of their
    [static_assert]: the mixin operations for every host type, the chaining
    operator for every operand.  A rejected instantiation has no run-time
    meaning, so the mismatch cannot show at run time.  (For the chaining
    operator the wrapper itself must be constructible from the callable.) *)
Theorem parameter_mismatch_is_rejected (L : Callable) (R : func_type) :
  LambdaReflection L = Some R →
  (∀ Base, argument_type R ≠ base_type Base →
     ScopeFunctions.let_ Base L = Rejected (StaticAssert let_message) ∧
     ScopeFunctions.also Base L = Rejected (StaticAssert also_message))
  ∧ (∀ lhs, argument_type R ≠ base_type (op_ty lhs) →
       ty_core (op_ty lhs) ≠ TVoid →
       invocable L [argument_type R] = true →
       operator_pipe lhs (e_let L) = Rejected (StaticAssert let_message) ∧
       operator_pipe lhs (e_also L) = Rejected (StaticAssert also_pipe_message)).
Proof.
  intros HR. split.
  - intros Base Hne. pose proof (argument_type_differs L R Base HR Hne) as Hd.
    unfold ScopeFunctions.let_, ScopeFunctions.also, is_same. rewrite HR. simpl.
    rewrite !bool_decide_eq_false_2 by congruence. done.
  - intros lhs Hne Hvoid Hcall.
    pose proof (argument_type_differs L R _ HR Hne) as Hd.
    unfold operator_pipe, let_.ctor, also.ctor.
    rewrite bool_decide_eq_false_2 by done. rewrite HR. simpl. rewrite Hcall. simpl.
    unfold pipe_let_lref, pipe_let_rref, pipe_also_lref, pipe_also_rref, is_same.
    simpl. rewrite !bool_decide_eq_false_2 by congruence.
    by destruct (op_cat lhs).
Qed.

Lemma parameter_mismatch_is_rejected_witness :
  (ScopeFunctions.let_ (plain tests.person_t) tests.zero_int
     = Rejected (StaticAssert let_message) ∧
   ScopeFunctions.also (plain tests.person_t) tests.zero_int
     = Rejected (StaticAssert also_message))
  ∧ (operator_pipe {| op_cat := lvalue; op_ty := plain tests.person_t |}
       (e_let tests.zero_int) = Rejected (StaticAssert let_message) ∧
     operator_pipe {| op_cat := lvalue; op_ty := plain tests.person_t |}
       (e_also tests.zero_int) = Rejected (StaticAssert also_pipe_message)).
Proof.
  destruct (parameter_mismatch_is_rejected tests.zero_int
              {| return_type := plain TVoid; argument_type := plain TInt |} eq_refl)
    as [Hmixin Hpipe].
  split.
  - apply Hmixin. discriminate.
  - apply Hpipe; [discriminate | discriminate | reflexivity].
Defined.

(** The negative test: [also] with a callable on [int&] applied to a
    [Person], through the mixin and through the chaining operator. *)
Example int_callable_on_person :
  ScopeFunctions.also (plain tests.person_t) tests.zero_int
    = Rejected (StaticAssert also_message)
  ∧ compile (Pipe (Var (plain tests.person_t) 0) (e_also tests.zero_int))
    = Rejected (StaticAssert also_pipe_message).
Proof. split; reflexivity. Qed.

(** Conversely, what was accepted has matching types. *)
Lemma accepted_let_matches Base L m :
  ScopeFunctions.let_ Base L = Accepted m →
  ∃ R, LambdaReflection L = Some R ∧ argument_type R = Base.
Proof.
  intros H. unfold ScopeFunctions.let_ in H. accepted_inv H.
  eexists; split; [reflexivity|]. by apply is_same_true.
Qed.

(** C7, as the code has it. A callable that declares a parameter is
    rejected at compile time by [run] (mixin and freestanding, also as a
    chain link) and by [with], because no zero-argument signature can be
    deduced for it.  The mixin's [apply] has no such check: all it needs
    is that the call [lambda()] in its body is well-formed, so it rejects
    a callable with a parameter that has no default argument, and accepts
    a callable whose parameters all have default arguments, which it then
    calls without arguments.  (Callables here have a call operator that
    is no template.) *)
Theorem capture_style_arity_check (L : Callable) :
  c_params L ≠ [] →
  ScopeFunctions.run L = Rejected DeductionFailure
  ∧ run.ctor L = Rejected DeductionFailure
  ∧ with_.ctor L = Rejected DeductionFailure
  ∧ (∀ lhs, ∃ d, operator_pipe lhs (e_run L) = Rejected d)
  ∧ ((c_defaults L < length (c_params L))%nat →
       ScopeFunctions.apply L = Rejected NoMatchingCall)
  ∧ ((length (c_params L) ≤ c_defaults L)%nat →
       ∃ m, ScopeFunctions.apply L = Accepted m ∧
            ∀ this st, m this st = (_ <- invoke L [] ;; ret this) st).
Proof.
  intros Hp. pose proof (LambdaReflectionNoArg_None L Hp) as HR.
  unfold ScopeFunctions.run, ScopeFunctions.apply, run.ctor, with_.ctor.
  rewrite HR. simpl. repeat split.
  - intros lhs. unfold operator_pipe, run.ctor. rewrite HR. simpl.
    destruct (bool_decide _); eauto.
  - intros Hd. destruct (invocable L []) eqn:E; [|done].
    apply invocable_nil in E. lia.
  - intros Hd. rewrite (proj2 (invocable_nil L) Hd). simpl. eauto.
Qed.

Lemma capture_style_arity_check_witness :
  ScopeFunctions.run tests.it_clear_location = Rejected DeductionFailure
  ∧ run.ctor tests.it_clear_location = Rejected DeductionFailure
  ∧ with_.ctor tests.it_clear_location = Rejected DeductionFailure
  ∧ ScopeFunctions.apply tests.it_clear_location = Rejected NoMatchingCall
  ∧ ∃ m, ScopeFunctions.apply tests.defaulted_int = Accepted m ∧
         ∀ this st, m this st = (_ <- invoke tests.defaulted_int [] ;; ret this) st.
Proof.
  destruct (capture_style_arity_check tests.it_clear_location)
    as (Hrun & Hctor & Hwith & _ & Hreject & _); [discriminate|].
  destruct (capture_style_arity_check tests.defaulted_int)
    as (_ & _ & _ & _ & _ & Haccept); [discriminate|].
  split; [exact Hrun|]. split; [exact Hctor|]. split; [exact Hwith|]. split.
  - apply Hreject. simpl. lia.
  - apply Haccept. simpl. lia.
Defined.

(** C7 as stated fails for the mixin's [apply]: [[](int x = 0) { }]
    declares a parameter, [run] and [with] reject it, and [apply] compiles
    and returns the host. *)
Lemma apply_accepts_defaulted_parameter :
  c_params tests.defaulted_int ≠ []
  ∧ ScopeFunctions.run tests.defaulted_int = Rejected DeductionFailure
  ∧ with_.ctor tests.defaulted_int = Rejected DeductionFailure
  ∧ ∃ m, ScopeFunctions.apply tests.defaulted_int = Accepted m
         ∧ m 0 tests.one_person =
             (Ok 0, {| heap := [VPerson tests.alice]; calls := [(14, [])] |}).
Proof.
  split; [discriminate|]. split; [reflexivity|]. split; [reflexivity|].
  eexists. split; reflexivity.
Qed.

(** The other direction of the arity check: a callable without parameters
    is rejected by the scope functions that pass the context object. *)
Lemma argument_style_rejects_no_parameters (L : Callable) Base :
  c_params L = [] →
  ScopeFunctions.let_ Base L = Rejected DeductionFailure
  ∧ ScopeFunctions.also Base L = Rejected DeductionFailure
  ∧ let_.ctor L = Rejected DeductionFailure
  ∧ also.ctor L = Rejected DeductionFailure.
Proof.
  intros Hp.
  assert (HR : LambdaReflection L = None).
  { unfold LambdaReflection, FuncType, deduce_function. simpl. by rewrite Hp. }
  unfold ScopeFunctions.let_, ScopeFunctions.also, let_.ctor, also.ctor.
  by rewrite HR.
Qed.

(** ** Exceptions *)

(** C9. When the call of the callable throws, every scope function ends
    with the same exception and in the same state as the bare call
    [lambda(args...)] made in its place: nothing is caught, nothing is
    retried, and the store is the one the callable left.  For a step of the
    chaining operator the bare call is made on the context object the
    left operand is bound to. *)
Theorem exceptions_propagate_unchanged (L : Callable) (e : exn) :
  (∀ Base m this st st',
     ScopeFunctions.let_ Base L = Accepted m →
     invoke L [this] st = (Raised e, st') → m this st = (Raised e, st'))
  ∧ (∀ m this st st',
       ScopeFunctions.run L = Accepted m →
       invoke L [] st = (Raised e, st') → m this st = (Raised e, st'))
  ∧ (∀ m this st st',
       ScopeFunctions.apply L = Accepted m →
       invoke L [] st = (Raised e, st') → m this st = (Raised e, st'))
  ∧ (∀ Base m this st st',
       ScopeFunctions.also Base L = Accepted m →
       invoke L [this] st = (Raised e, st') → m this st = (Raised e, st'))
  ∧ (∀ w c st st', let_.fun_ w = L →
       invoke L [c] st = (Raised e, st') → let_.operator_call w c st = (Raised e, st'))
  ∧ (∀ w st st', run.fun_ w = L →
       invoke L [] st = (Raised e, st') → run.operator_call w st = (Raised e, st'))
  ∧ (∀ w c st st', also.fun_ w = L →
       invoke L [c] st = (Raised e, st') → also.operator_call w c st = (Raised e, st'))
  ∧ (∀ m st st',
       with_.ctor L = Accepted m →
       invoke L [] st = (Raised e, st') → m st = (Raised e, st'))
  ∧ (∀ lhs rhs T step x st c st1 st',
       callee rhs = L →
       operator_pipe lhs rhs = Accepted (T, step) →
       bind_reference x st = (Ok c, st1) →
       invoke L (link_args rhs c) st1 = (Raised e, st') →
       step x st = (Raised e, st')).
Proof.
  repeat split.
  - intros Base m this st st' H Hthrow. unfold ScopeFunctions.let_ in H.
    accepted_inv H. injection H as <-. by apply bind_Raised.
  - intros m this st st' H Hthrow. unfold ScopeFunctions.run in H.
    accepted_inv H. injection H as <-. by apply bind_Raised.
  - intros m this st st' H Hthrow. unfold ScopeFunctions.apply in H.
    accepted_inv H. injection H as <-. by apply bind_Raised.
  - intros Base m this st st' H Hthrow. unfold ScopeFunctions.also in H.
    accepted_inv H. injection H as <-. by apply bind_Raised.
  - intros w c st st' <- Hthrow. by apply bind_Raised.
  - intros w st st' <- Hthrow. by apply bind_Raised.
  - intros w c st st' <- Hthrow. by apply bind_Raised.
  - intros m st st' H Hthrow. unfold with_.ctor in H. accepted_inv H.
    injection H as <-. apply bind_Raised. by apply bind_Raised.
  - intros lhs rhs T step x st c st1 st' <- H Hbind Hthrow.
    unfold operator_pipe in H.
    destruct (bool_decide (ty_core (op_ty lhs) = TVoid)); [discriminate|].
    destruct rhs as [L|L|L|L]; simpl in Hthrow.
    + unfold let_.ctor, pipe_let_lref, pipe_let_rref in H. accepted_inv H.
      all: injection H as <- <-; rewrite (bind_Ok _ _ _ _ _ Hbind);
        apply bind_Raised; by apply bind_Raised.
    + unfold run.ctor, pipe_run_lref, pipe_run_rref in H. accepted_inv H.
      all: injection H as <- <-; rewrite (bind_Ok _ _ _ _ _ Hbind);
        apply bind_Raised; by apply bind_Raised.
    + unfold also.ctor, pipe_also_lref, pipe_also_rref in H. accepted_inv H.
      all: injection H as <- <-; rewrite (bind_Ok _ _ _ _ _ Hbind);
        apply bind_Raised; by apply bind_Raised.
    + unfold with_.ctor in H. accepted_inv H.
Qed.

Lemma exceptions_propagate_unchanged_witness :
  (∃ m, ScopeFunctions.let_ (plain tests.person_t) tests.clear_then_throw = Accepted m ∧
        m 0 tests.one_person =
          (Raised (Exn "boom"),
           {| heap := [VPerson (tests.clear_name tests.alice)]; calls := [(9, [0])] |}))
  ∧ (∃ T step,
       operator_pipe {| op_cat := rvalue; op_ty := plain tests.person_t |}
         (e_also tests.clear_then_throw) = Accepted (T, step) ∧
       step (Temp (VPerson tests.alice)) tests.empty_state =
         (Raised (Exn "boom"),
          {| heap := [VPerson (tests.clear_name tests.alice)]; calls := [(9, [0])] |})).
Proof.
  destruct (exceptions_propagate_unchanged tests.clear_then_throw (Exn "boom"))
    as (Hlet & _ & _ & _ & _ & _ & _ & _ & Hpipe).
  split.
  - eexists. split; [reflexivity|].
    apply (Hlet (plain tests.person_t)); reflexivity.
  - eexists _, _. split; [reflexivity|].
    eapply (Hpipe {| op_cat := rvalue; op_ty := plain tests.person_t |}
                  (e_also tests.clear_then_throw)); reflexivity.
Defined.

(** ** The chaining operator, link by link *)

(** An accepted link binds the context object and runs [link_run] on it. *)
Lemma operator_pipe_step lhs rhs T step :
  operator_pipe lhs rhs = Accepted (T, step) →
  ∀ x, step x = (c <- bind_reference x ;; link_run rhs c).
Proof.
  intros H x. unfold operator_pipe in H.
  destruct (bool_decide (ty_core (op_ty lhs) = TVoid)); [discriminate|].
  destruct rhs as [L|L|L|L].
  - unfold let_.ctor, pipe_let_lref, pipe_let_rref in H. accepted_inv H.
    all: by injection H as <- <-.
  - unfold run.ctor, pipe_run_lref, pipe_run_rref in H. accepted_inv H.
    all: by injection H as <- <-.
  - unfold also.ctor, pipe_also_lref, pipe_also_rref in H. accepted_inv H.
    all: by injection H as <- <-.
  - unfold with_.ctor in H. accepted_inv H.
Qed.

(** The type and category of an accepted link. *)
Lemma operator_pipe_type lhs rhs T step :
  operator_pipe lhs rhs = Accepted (T, step) →
  match rhs with
  | e_let L | e_run L => T = {| op_cat := rvalue; op_ty := base_type (c_ret L) |}
  | e_also L => T = {| op_cat := lvalue; op_ty := op_ty lhs |}
  | e_with L => False
  end.
Proof.
  intros H. unfold operator_pipe in H.
  destruct (bool_decide (ty_core (op_ty lhs) = TVoid)); [discriminate|].
  destruct rhs as [L|L|L|L].
  - unfold let_.ctor, pipe_let_lref, pipe_let_rref in H. accepted_inv H.
    all: injection H as <- _; simpl.
    all: match goal with
         | E : LambdaReflection _ = Some _ |- _ =>
             apply LambdaReflection_Some in E as (p & _ & ->)
         end; reflexivity.
  - unfold run.ctor, pipe_run_lref, pipe_run_rref in H. accepted_inv H.
    all: injection H as <- _; simpl.
    all: match goal with
         | E : LambdaReflectionNoArg _ = Some _ |- _ =>
             apply LambdaReflectionNoArg_Some in E as (_ & ->)
         end; reflexivity.
  - unfold also.ctor, pipe_also_lref, pipe_also_rref in H. accepted_inv H.
    all: injection H as <- _; simpl.
    all: match goal with
         | E : is_same _ _ = true |- _ => apply is_same_true in E; simpl in E
         end; congruence.
  - unfold with_.ctor in H. accepted_inv H.
Qed.

Lemma compile_Pipe p rhs T m :
  compile (Pipe p rhs) = Accepted (T, m) →
  ∃ T0 m0 step,
    compile p = Accepted (T0, m0) ∧
    operator_pipe T0 rhs = Accepted (T, step) ∧
    m = (x <- m0 ;; step x).
Proof.
  simpl. destruct (compile p) as [[T0 m0]|]; [|discriminate]. simpl.
  destruct (operator_pipe T0 rhs) as [[T1 step]|] eqn:E; [|discriminate]. simpl.
  intros [= <- <-]. by exists T0, m0, step.
Qed.

(** ** What [let] returns *)

Lemma returned_reference L args st l h v :
  c_body L args (heap st) = (Return (ByRef l), h) →
  h !! l = Some v →
  (r <- invoke L args ;; to_value (c_ret L) r) st
  = (Ok v, logged st L args (converted_store (c_ret L) l v h)).
Proof.
  intros Hb Hl. unfold bind at 1. unfold invoke. rewrite Hb.
  by rewrite (to_value_ByRef _ l v) by done.
Qed.

Lemma converted_store_length R l v (h : store) :
  length (converted_store R l v h) = length h.
Proof. unfold converted_store. destruct (moves R); [apply length_insert|done]. Qed.

(** C10, as the code has it. The return type deduced for a callable is
    its declared return type without reference and without qualifiers, so
    [let] always returns by value, a new object.  When the callable
    returns an lvalue reference that object is a copy, and the object
    referred to stays as it is; when it returns an rvalue reference (to a
    non-const type) the new object is move-constructed, and the object
    referred to is left moved-from.  Either way, in a chain
    [x | let(f) | next] where [f] returns a reference to [x], the result of
    [let] is a prvalue and [next] runs on the new object, at a location
    other than that of [x]. *)
Theorem let_returns_by_value :
  (∀ L R, LambdaReflection L = Some R → return_type R = plain (ty_core (c_ret L)))
  ∧ (∀ L w, let_.ctor L = Accepted w → let_.RT w = plain (ty_core (c_ret L)))
  ∧ (∀ R l v (h : store),
       (ty_ref R ≠ RRef → converted_store R l v h = h)
       ∧ (ty_ref R = RRef → is_const (ty_cv R) = true →
            converted_store R l v h = h)
       ∧ (ty_ref R = RRef → is_const (ty_cv R) = false →
            converted_store R l v h = <[l := moved_from v]> h))
  ∧ (∀ Base L m this st l h v,
       ScopeFunctions.let_ Base L = Accepted m →
       c_body L [this] (heap st) = (Return (ByRef l), h) →
       h !! l = Some v →
       m this st = (Ok v, logged st L [this] (converted_store (c_ret L) l v h)))
  ∧ (∀ T l L T1 m1 st h v,
       compile (Pipe (Var T l) (e_let L)) = Accepted (T1, m1) →
       c_body L [l] (heap st) = (Return (ByRef l), h) →
       h !! l = Some v →
       T1 = {| op_cat := rvalue; op_ty := plain (ty_core (c_ret L)) |} ∧
       m1 st = (Ok (Temp v), logged st L [l] (converted_store (c_ret L) l v h)) ∧
       ∀ next T2 m2,
         compile (Pipe (Pipe (Var T l) (e_let L)) next) = Accepted (T2, m2) →
         length h ≠ l ∧
         m2 st = link_run next (length h)
                   {| heap := converted_store (c_ret L) l v h ++ [v];
                      calls := calls st ++ [(c_id L, [l])] |}).
Proof.
  split; [|split; [|split; [|split]]].
  - intros L R HR. by apply LambdaReflection_Some in HR as (p & _ & ->).
  - intros L w H. unfold let_.ctor in H. accepted_inv H. injection H as <-. simpl.
    match goal with
    | E : LambdaReflection _ = Some _ |- _ =>
        by apply LambdaReflection_Some in E as (p & _ & ->)
    end.
  - intros R l v h. unfold converted_store, moves. split; [|split].
    + intros HR. by rewrite bool_decide_eq_false_2.
    + intros HR Hc. by rewrite Hc, andb_false_r.
    + intros HR Hc. by rewrite bool_decide_eq_true_2, Hc.
  - intros Base L m this st l h v H Hb Hl. unfold ScopeFunctions.let_ in H.
    accepted_inv H. injection H as <-. by apply returned_reference.
  - intros T l L T1 m1 st h v H1 Hb Hl.
    assert (Hm1 : m1 st = (Ok (Temp v),
                           logged st L [l] (converted_store (c_ret L) l v h))).
    { apply compile_Pipe in H1 as (T0 & m0 & step & H0 & Hstep & ->).
      simpl in H0. injection H0 as <- <-.
      rewrite (bind_Ok _ _ st (AtLoc l) st) by reflexivity.
      rewrite (operator_pipe_step _ _ _ _ Hstep).
      rewrite (bind_Ok _ _ st l st) by reflexivity. simpl.
      by rewrite (bind_Ok _ _ _ _ _ (returned_reference L [l] st l h v Hb Hl)). }
    split; [|split; [exact Hm1|]].
    + apply compile_Pipe in H1 as (T0 & m0 & step & _ & Hstep & _).
      by apply operator_pipe_type in Hstep.
    + intros next T2 m2 H2.
      apply compile_Pipe in H2 as (T1' & m1' & step & H1' & Hstep & ->).
      rewrite H1 in H1'. injection H1' as <- <-. split.
      * apply lookup_lt_Some in Hl. lia.
      * rewrite (bind_Ok _ _ _ _ _ Hm1).
        rewrite (operator_pipe_step _ _ _ _ Hstep).
        unfold bind at 1. unfold bind_reference, alloc, logged. simpl.
        by rewrite converted_store_length.
Qed.

Lemma let_returns_by_value_witness :
  (∃ m, ScopeFunctions.let_ (plain tests.person_t) tests.birthday_ref = Accepted m ∧
        m 0 tests.one_person =
          (Ok (VPerson (tests.set_age 30%Z tests.alice)),
           logged tests.one_person tests.birthday_ref [0]
             [VPerson (tests.set_age 30%Z tests.alice)]))
  ∧ (∃ T2 m2,
       compile (Pipe (Pipe (Var (plain tests.vector_int) 0) (e_let tests.move_it))
                     (e_let tests.max_of)) = Accepted (T2, m2) ∧
       1 ≠ 0 ∧
       m2 {| heap := [VVector [1; 2; 3]%Z]; calls := [] |} =
         link_run (e_let tests.max_of) 1
           {| heap := [VVector []; VVector [1; 2; 3]%Z]; calls := [(13, [0])] |}).
Proof.
  destruct let_returns_by_value as (_ & _ & _ & Hmixin & Hchain).
  split.
  - eexists. split; [reflexivity|].
    apply (Hmixin (plain tests.person_t) tests.birthday_ref _ 0 tests.one_person 0);
      reflexivity.
  - eexists _, _. split; [reflexivity|].
    destruct (Hchain (plain tests.vector_int) 0 tests.move_it _ _
                {| heap := [VVector [1; 2; 3]%Z]; calls := [] |}
                [VVector [1; 2; 3]%Z] (VVector [1; 2; 3]%Z)
                eq_refl eq_refl eq_refl) as (_ & _ & Hnext).
    eapply (Hnext (e_let tests.max_of)). reflexivity.
Defined.

(** C10 as stated fails for a callable that returns an rvalue reference:
    in [vec | let([](std::vector<int>& it) -> std::vector<int>&&
    { return std::move(it); })] the result of [let] holds the three
    elements, but it is no copy: the callable left [vec] as it was, and
    [let] leaves it empty. *)
Lemma let_moves_out_of_the_original :
  ∃ T m,
    compile (Pipe (Var (plain tests.vector_int) 0) (e_let tests.move_it))
      = Accepted (T, m)
    ∧ snd (c_body tests.move_it [0] [VVector [1; 2; 3]%Z]) = [VVector [1; 2; 3]%Z]
    ∧ m {| heap := [VVector [1; 2; 3]%Z]; calls := [] |} =
        (Ok (Temp (VVector [1; 2; 3]%Z)),
         {| heap := [VVector []]; calls := [(13, [0])] |}).
Proof. eexists _, _. split; [reflexivity|]. split; reflexivity. Qed.

(** ** Identity along a chain *)

Lemma chain_snoc T l es e : chain T l (es ++ [e]) = Pipe (chain T l es) e.
Proof. unfold chain. by rewrite fold_left_app. Qed.

Lemma link_run_calls rhs c st :
  (∀ L, rhs ≠ e_with L) →
  calls (snd (link_run rhs c st)) = calls st ++ [(c_id (callee rhs), link_args rhs c)].
Proof.
  intros Hw. destruct rhs as [L|L|L|L]; simpl.
  - pose proof (returning_call_calls L [c] (c_ret L) st) as H. unfold bind at 1.
    by destruct ((r <- invoke L [c] ;; to_value (c_ret L) r) st) as [[v|e|] st'].
  - pose proof (returning_call_calls L [] (c_ret L) st) as H. unfold bind at 1.
    by destruct ((r <- invoke L [] ;; to_value (c_ret L) r) st) as [[v|e|] st'].
  - run_monad. by destruct (c_body L [c] (heap st)) as [[r|e|] h].
  - by destruct (Hw L).
Qed.

Lemma take_min_snoc {A B} (f : A → B) (n : nat) (xs : list A) (ys : list B) :
  take n (map f xs) = take (n `min` length xs) (map f xs ++ ys).
Proof.
  rewrite take_app_le by (rewrite length_map; lia).
  destruct (decide (n ≤ length xs)%nat).
  - by rewrite Nat.min_l.
  - rewrite Nat.min_r by lia. rewrite !take_ge; [done | | ]; rewrite length_map; lia.
Qed.

Lemma observes_snoc l es rhs (m0 : M operand) step :
  (∀ L, rhs ≠ e_with L) → link_args rhs l = [l] →
  observes l es m0 →
  (∀ st x, fst (m0 st) = Ok x → x = AtLoc l) →
  (∀ x, step x = (c <- bind_reference x ;; link_run rhs c)) →
  observes l (es ++ [rhs]) (x <- m0 ;; step x).
Proof.
  intros Hw Hargs Hobs Hat Hstep st.
  destruct (Hobs st) as (n0 & Hcalls & Hfull).
  rewrite map_app. simpl.
  destruct (m0 st) as [[x|e|] st0] eqn:E; simpl in *.
  - pose proof (Hat st x) as Hx. rewrite E in Hx. specialize (Hx eq_refl). subst x.
    specialize (Hfull _ eq_refl).
    exists (S (length es)). rewrite (bind_Ok _ _ _ _ _ E), Hstep.
    unfold bind at 1. unfold bind_reference, ret.
    rewrite link_run_calls by done. rewrite Hargs, Hcalls.
    rewrite take_ge by (rewrite length_map; lia).
    rewrite take_ge by (rewrite length_app, length_map; simpl; lia).
    rewrite <- app_assoc. split; [done|]. intros _ _. rewrite length_app. simpl. lia.
  - exists (n0 `min` length es)%nat. rewrite (bind_Raised _ _ _ _ _ E). simpl.
    split; [|done]. rewrite Hcalls. f_equal. apply take_min_snoc.
  - exists (n0 `min` length es)%nat. rewrite (bind_Undefined _ _ _ _ E). simpl.
    split; [|done]. rewrite Hcalls. f_equal. apply take_min_snoc.
Qed.

(** A chain of [also] links stays on the object it started on. *)
Lemma also_chain_stays T l (Ls : list Callable) T' m :
  compile (chain T l (map e_also Ls)) = Accepted (T', m) →
  T' = {| op_cat := lvalue; op_ty := T |}
  ∧ observes l (map e_also Ls) m
  ∧ (∀ st x, fst (m st) = Ok x → x = AtLoc l).
Proof.
  revert T' m. induction Ls as [|L Ls IH] using rev_ind; intros T' m H.
  - simpl in H. injection H as <- <-. repeat split.
    + intros st. exists 0. simpl. rewrite app_nil_r. split; [done|]. lia.
    + intros st x. simpl. by intros [= <-].
  - rewrite map_app in H |- *. simpl in H |- *. rewrite chain_snoc in H.
    apply compile_Pipe in H as (T0 & m0 & step & H0 & Hstep & ->).
    destruct (IH _ _ H0) as (-> & Hobs & Hat).
    pose proof (operator_pipe_type _ _ _ _ Hstep) as HT. simpl in HT.
    pose proof (operator_pipe_step _ _ _ _ Hstep) as Hrun.
    repeat split.
    + exact HT.
    + by apply observes_snoc.
    + intros st x. unfold bind at 1.
      destruct (m0 st) as [[x0|e|] st0] eqn:E; simpl; try discriminate.
      pose proof (Hat st x0) as Hx. rewrite E in Hx. specialize (Hx eq_refl). subst x0.
      rewrite Hrun. run_monad.
      destruct (c_body L [l] (heap st0)) as [[r|e|] h]; simpl;
        [|discriminate|discriminate].
      by intros [= <-].
Qed.

(** C3, as the code has it. In a chain of [also] links started on one
    object, optionally ended by one [let] link, every link calls its
    callable on the object the chain started on.  (A link that follows a
    [let] gets the result of that [let], which is a new object.) *)
Theorem also_chain_keeps_identity T l (Ls : list Callable) (last : list scope_expr) T' m :
  (last = [] ∨ ∃ L, last = [e_let L]) →
  compile (chain T l (map e_also Ls ++ last)) = Accepted (T', m) →
  observes l (map e_also Ls ++ last) m.
Proof.
  intros [-> | [L ->]] H.
  - rewrite app_nil_r in *. by apply also_chain_stays in H as (_ & ? & _).
  - rewrite chain_snoc in H.
    apply compile_Pipe in H as (T0 & m0 & step & H0 & Hstep & ->).
    apply also_chain_stays in H0 as (_ & Hobs & Hat).
    apply observes_snoc; try done.
    by apply (operator_pipe_step _ _ _ _ Hstep).
Qed.

Lemma also_chain_keeps_identity_witness :
  ∃ T' m,
    compile (chain (plain tests.person_t) 0
               (map e_also [tests.it_clear_location; tests.birthday_ref]
                ++ [e_let tests.birthday_ref])) = Accepted (T', m)
    ∧ observes 0 (map e_also [tests.it_clear_location; tests.birthday_ref]
                  ++ [e_let tests.birthday_ref]) m.
Proof.
  eexists _, _. split; [reflexivity|].
  eapply (also_chain_keeps_identity (plain tests.person_t) 0
            [tests.it_clear_location; tests.birthday_ref] [e_let tests.birthday_ref]).
  - right. by exists tests.birthday_ref.
  - reflexivity.
Defined.

(** C3 as stated fails: in [person | let(f) | also(g)], where [f] returns
    a reference to its argument, [g] is not called on [person] (location
    0) but on the temporary that holds the result of [let] (location 1),
    and what [g] writes does not reach [person]. *)
Lemma let_result_is_another_object :
  ∃ T m,
    compile (chain (plain tests.person_t) 0
               [e_let tests.birthday_ref; e_also tests.it_clear_location])
      = Accepted (T, m)
    ∧ m tests.one_person =
        (Ok (AtLoc 1),
         {| heap := [VPerson (tests.set_age 30%Z tests.alice);
                     VPerson (tests.clear_location (tests.set_age 30%Z tests.alice))];
            calls := [(8, [0]); (6, [1])] |})
    ∧ ¬ observes 0 [e_let tests.birthday_ref; e_also tests.it_clear_location] m.
Proof.
  eexists _, _. split; [reflexivity|]. split; [reflexivity|].
  intros Hobs. destruct (Hobs tests.one_person) as (n & Hn & _).
  vm_compute in Hn. by destruct n as [|[|[|n]]].
Qed.

(** The links of [MixingFunctionsTest] are called on three different
    objects: the vector, the copy that the first [let] returns, and the
    number that the second [let] returns. *)
Example mixing_chain_objects :
  ∃ T m, compile tests.mixing_chain = Accepted (T, m) ∧
         calls (snd (m tests.empty_state)) = [(1, [0]); (2, [1]); (3, [2])].
Proof. eexists _, _. split; reflexivity. Qed.

(** ** A chain against the same calls made by hand *)

Lemma bind_assoc {A B C} (m : M A) (k : A → M B) (k' : B → M C) st :
  (b <- (a <- m ;; k a) ;; k' b) st = (a <- m ;; b <- k a ;; k' b) st.
Proof. unfold bind. by destruct (m st) as [[a|e|] st']. Qed.

Lemma bind_ext {A B} (m : M A) (k k' : A → M B) st :
  (∀ a st', k a st' = k' a st') → (a <- m ;; k a) st = (a <- m ;; k' a) st.
Proof. intros H. unfold bind. destruct (m st) as [[a|e|] st']; [apply H|done|done]. Qed.

Lemma manual_app (xs ys : list scope_expr) : ∀ cur st,
  manual cur (xs ++ ys) st = (l <- manual cur xs ;; manual l ys) st.
Proof.
  induction xs as [|e xs IH]; intros cur st; [reflexivity|].
  destruct e as [f|f|f|f]; simpl; rewrite !bind_assoc;
    apply bind_ext; intros r st1; rewrite ?bind_assoc; try apply IH.
  all: apply bind_ext; intros v st2; rewrite ?bind_assoc; try apply IH.
  all: apply bind_ext; intros next st3; apply IH.
Qed.

(** A value kept as a prvalue by the chain and stored in a new variable
    by the hand-written sequence. *)
Lemma kept_value_agrees (m : M value) (s : state) :
  agree ((v <- m ;; ret (Temp v)) s) ((v <- m ;; next <- alloc v ;; ret next) s).
Proof. unfold bind, ret, alloc. by destruct (m s) as [[v|e|] s']. Qed.

(** One link keeps the chain and the hand-written sequence in agreement. *)
Lemma link_agrees rhs x sa l sb :
  (∀ L, rhs ≠ e_with L) →
  agree (Ok x, sa) (Ok l, sb) →
  agree ((c <- bind_reference x ;; link_run rhs c) sa) (manual l [rhs] sb).
Proof.
  intros Hw Hag.
  assert (Hbound : bind_reference x sa = (Ok l, sb)).
  { destruct x as [l0|v]; simpl in Hag; destruct Hag as [-> ->]; reflexivity. }
  rewrite (bind_Ok _ _ _ _ _ Hbound). clear Hbound Hag x sa.
  destruct rhs as [L|L|L|L]; [| | |by destruct (Hw L)]; simpl.
  - rewrite <- (bind_assoc (invoke L [l]) (to_value (c_ret L))
                  (fun v => next <- alloc v ;; ret next)).
    apply kept_value_agrees.
  - rewrite <- (bind_assoc (invoke L []) (to_value (c_ret L))
                  (fun v => next <- alloc v ;; ret next)).
    apply kept_value_agrees.
  - run_monad. by destruct (c_body L [l] (heap sb)) as [[r|e|] h].
Qed.

(** The chain and the hand-written sequence agree at the end of every
    prefix of the chain. *)
Lemma chain_agrees_with_manual (p : pipeline) : ∀ T m,
  compile p = Accepted (T, m) →
  ∀ st, agree (m st)
              ((v0 <- manual_start (chain_start_of p) ;; manual v0 (links p)) st).
Proof.
  induction p as [T0 l|T0 v|p IH rhs]; intros T m H st.
  - simpl in H. injection H as <- <-. by simpl.
  - simpl in H. injection H as <- <-. by simpl.
  - apply compile_Pipe in H as (T0 & m0 & step & H0 & Hstep & ->).
    specialize (IH _ _ H0 st). simpl chain_start_of. simpl links.
    assert (Hw : ∀ L, rhs ≠ e_with L).
    { intros L ->. by apply operator_pipe_type in Hstep. }
    rewrite (bind_ext _ _ (fun v0 => l <- manual v0 (links p) ;; manual l [rhs]))
      by (intros; apply manual_app).
    rewrite <- bind_assoc.
    set (R0 := (v0 <- manual_start (chain_start_of p) ;; manual v0 (links p))) in *.
    unfold bind at 1 2.
    destruct (m0 st) as [[x|e|] sa], (R0 st) as [[l|e'|] sb]; simpl in IH; try done.
    + rewrite (operator_pipe_step _ _ _ _ Hstep). by apply link_agrees.
    + by destruct x.
    + by destruct x.
Qed.

(** C8. A chain that compiles ends like the same callables applied by hand,
    one statement per link, each kept result stored in a variable that the
    next statement uses: the final value (or the failure) is the same, the
    same calls were made in the same order, and the stores differ at most
    by the variable in which the hand-written sequence holds its last
    result. *)
Theorem chain_equals_manual (p : pipeline) (T : operand_type) (m : M operand) :
  compile p = Accepted (T, m) →
  ∀ st,
    let chain_end := (x <- m ;; value_of x) st in
    let manual_end := manual_value (chain_start_of p) (links p) st in
    fst chain_end = fst manual_end
    ∧ calls (snd chain_end) = calls (snd manual_end)
    ∧ heap (snd chain_end) `prefix_of` heap (snd manual_end).
Proof.
  intros H st. pose proof (chain_agrees_with_manual p T m H st) as Hag.
  unfold manual_value. cbv zeta.
  rewrite <- (bind_assoc (manual_start (chain_start_of p))).
  set (R0 := (v0 <- manual_start (chain_start_of p) ;; manual v0 (links p))) in *.
  unfold bind.
  destruct (m st) as [[[l|v]|e|] sa], (R0 st) as [[l'|e'|] sb]; simpl in Hag; try done.
  - destruct Hag as [<- <-]. by simpl.
  - destruct Hag as [-> ->]. unfold load. simpl.
    rewrite lookup_app_r by done. rewrite Nat.sub_diag. simpl.
    repeat split. by apply prefix_app_r.
  - destruct Hag as [<- <-]. by simpl.
  - subst sb. by simpl.
Qed.

Lemma chain_equals_manual_witness :
  ∃ T m,
    compile tests.mixing_chain = Accepted (T, m)
    ∧ fst ((x <- m ;; value_of x) tests.empty_state) = Ok (VUnsigned 8%Z)
    ∧ fst ((x <- m ;; value_of x) tests.empty_state)
      = fst (manual_value (StartTmp (VVector [1; 2; 3]%Z))
               [e_let tests.push_back_4; e_let tests.max_of; e_also tests.double_it]
               tests.empty_state).
Proof.
  eexists _, _. split; [reflexivity|]. split; [reflexivity|].
  eapply (chain_equals_manual tests.mixing_chain). reflexivity.
Defined.

(** ** [with] *)

(** Constructing a [with] from a callable without parameters compiles and
    calls the callable once, during construction. *)
Lemma with_ctor_runs_at_construction (L : Callable) :
  c_params L = [] →
  ∃ m, with_.ctor L = Accepted m ∧ invokes_once L m ∧
    ∀ st v h, c_body L [] (heap st) = (Return (ByValue v), h) →
      m st = (Ok {| with_.RT := base_type (c_ret L); with_.fun_ := L |}, logged st L [] h).
Proof.
  intros Hp. unfold with_.ctor.
  assert (HR : LambdaReflectionNoArg L = Some (base_type (c_ret L)))
    by by apply LambdaReflectionNoArg_Some.
  assert (Hcall : invocable L [] = true) by by apply invocable_no_params.
  rewrite HR. simpl. rewrite Hcall. simpl.
  eexists. split; [reflexivity|]. split.
  - apply (then_wrap_once L _ (fun _ => _)). apply returning_call_once.
  - intros st v h Hb. unfold with_.operator_call. run_monad. by rewrite Hb.
Qed.

(** No overload of the chaining operator takes a [with]. *)
Lemma with_is_not_chainable (lhs : operand_type) (L : Callable) :
  ∃ d, operator_pipe lhs (e_with L) = Rejected d.
Proof.
  unfold operator_pipe. destruct (bool_decide _); [eauto|].
  destruct (with_.ctor L); simpl; eauto.
Qed.

(** C4, on [with([] { return 5; })]. The callable runs once while the
    object is constructed, before anything else is evaluated, and a [with]
    is no right operand of the chaining operator; but the [5] it returned
    is dropped: the expression is the [with] object, and the only way to
    the value, calling that object, runs the callable a second time. *)
Theorem with_drops_the_result :
  ∃ m,
    with_.ctor tests.five = Accepted m
    ∧ m tests.empty_state =
        (Ok {| with_.RT := plain TInt; with_.fun_ := tests.five |},
         {| heap := []; calls := [(10, [])] |})
    ∧ (w <- m ;; with_.operator_call w) tests.empty_state =
        (Ok (VInt 5), {| heap := []; calls := [(10, []); (10, [])] |})
    ∧ ∀ lhs, ∃ d, operator_pipe lhs (e_with tests.five) = Rejected d.
Proof.
  eexists. split; [reflexivity|]. split; [reflexivity|]. split; [reflexivity|].
  intros lhs. apply with_is_not_chainable.
Qed.

(** ** The scenarios of the tests *)

(** [WithFunctionTest]: the name is cleared as soon as the [with] is
    constructed. *)
Example with_clears_name :
  ∃ m, with_.ctor (tests.capture_clear_name 0) = Accepted m ∧
       heap (snd (m tests.one_person)) = [VPerson (tests.clear_name tests.alice)].
Proof. eexists. split; reflexivity. Qed.

(** [ApplyFunctionTest] and [MixingFunctionsTest], second part:
    [person.apply(...).apply(...).also(...)]. *)
Example apply_apply_also :
  ∃ f1 f2 f3,
    ScopeFunctions.apply (tests.capture_set_age 0 8%Z) = Accepted f1
    ∧ ScopeFunctions.apply (tests.capture_clear_name 0) = Accepted f2
    ∧ ScopeFunctions.also (plain tests.person_t) tests.it_clear_location = Accepted f3
    ∧ (r1 <- f1 0 ;; r2 <- f2 r1 ;; f3 r2) tests.one_person =
        (Ok 0,
         {| heap := [VPerson {| testentities.name := ""; testentities.location := "";
                                testentities.age := 8%Z |}];
            calls := [(4, []); (5, []); (6, [0])] |}).
Proof. eexists _, _, _. repeat split. Qed.

(** [RunFunctionTest], second part: [hello | run(...)]. *)
Example run_replaces_first_letter :
  ∃ T m,
    compile (Pipe (Var (plain TString) 0) (e_run (tests.capture_replace_first 0)))
      = Accepted (T, m)
    ∧ heap (snd (m {| heap := [VString "hello world"]; calls := [] |}))
      = [VString "yello world"].
Proof. eexists _, _. split; reflexivity. Qed.

(** [MixingFunctionsTest], first part: the chain yields 8, as do the same
    three calls made by hand. *)
Example mixing_chain_yields_8 :
  ∃ T m,
    compile tests.mixing_chain = Accepted (T, m)
    ∧ fst ((x <- m ;; value_of x) tests.empty_state) = Ok (VUnsigned 8%Z)
    ∧ fst (manual_value (StartTmp (VVector [1; 2; 3]%Z))
             [e_let tests.push_back_4; e_let tests.max_of; e_also tests.double_it]
             tests.empty_state) = Ok (VUnsigned 8%Z).
Proof. eexists _, _. repeat split. Qed.

(** * Further properties of the code *)

(** ** Which callables are accepted *)

Lemma invocable_one (L : Callable) (p T : ty) :
  c_params L = [p] → invocable L [T] = accepts_lvalue p T.
Proof.
  intros Hp. unfold invocable. rewrite Hp.
  rewrite bool_decide_eq_true_2 by (simpl; lia). simpl.
  by rewrite andb_true_r.
Qed.

Lemma accepts_own_base_type (p : ty) :
  accepts_lvalue p (base_type p) = true ↔ ty_ref p ≠ RRef.
Proof.
  unfold accepts_lvalue, cv_le. destruct (ty_ref p); simpl.
  - rewrite bool_decide_eq_true_2 by done. done.
  - rewrite bool_decide_eq_true_2 by done. done.
  - split; [discriminate | congruence].
Qed.

(** What the argument-receiving scope functions ask of a callable, however
    they are reached: one parameter that is no rvalue reference. *)
Lemma argument_style_checks (L : Callable) (T : ty) :
  (∃ R, LambdaReflection L = Some R ∧ is_same (argument_type R) T = true
        ∧ invocable L [T] = true)
  ↔ ∃ p, c_params L = [p] ∧ base_type p = T ∧ ty_ref p ≠ RRef.
Proof.
  split.
  - intros (R & HR & Hsame & Hcall).
    apply LambdaReflection_Some in HR as (p & Hp & ->). simpl in Hsame.
    apply is_same_true in Hsame. exists p. repeat split; [done|done|].
    rewrite (invocable_one L p T Hp), <- Hsame in Hcall.
    by apply accepts_own_base_type.
  - intros (p & Hp & <- & Href).
    exists {| return_type := base_type (c_ret L); argument_type := base_type p |}.
    repeat split.
    + apply LambdaReflection_Some. by exists p.
    + by apply is_same_true.
    + rewrite (invocable_one L p _ Hp). by apply accepts_own_base_type.
Qed.

Lemma mixin_let_accepted (Base : ty) (L : Callable) :
  accepted (ScopeFunctions.let_ Base L) = true
  ↔ ∃ p, c_params L = [p] ∧ base_type p = Base ∧ ty_ref p ≠ RRef.
Proof.
  rewrite <- argument_style_checks. unfold ScopeFunctions.let_. split.
  - intros H.
    destruct (LambdaReflection L) as [R|]; [|discriminate]. simpl in H.
    destruct (is_same (argument_type R) Base) eqn:Hs; [|discriminate]. simpl in H.
    destruct (invocable L [Base]) eqn:Hc; [|discriminate]. by exists R.
  - intros (R & HR & Hs & Hc). rewrite HR. simpl. rewrite Hs. simpl. by rewrite Hc.
Qed.

Lemma mixin_also_accepted (Base : ty) (L : Callable) :
  accepted (ScopeFunctions.also Base L) = true
  ↔ ∃ p, c_params L = [p] ∧ base_type p = Base ∧ ty_ref p ≠ RRef.
Proof.
  rewrite <- argument_style_checks. unfold ScopeFunctions.also. split.
  - intros H.
    destruct (LambdaReflection L) as [R|]; [|discriminate]. simpl in H.
    destruct (is_same Base (argument_type R)) eqn:Hs; [|discriminate]. simpl in H.
    destruct (invocable L [Base]) eqn:Hc; [|discriminate]. exists R.
    split; [done|]. split; [|done].
    apply is_same_true. by apply is_same_true in Hs.
  - intros (R & HR & Hs & Hc). rewrite HR. simpl. apply is_same_true in Hs.
    rewrite (proj2 (is_same_true Base (argument_type R))) by done.
    simpl. by rewrite Hc.
Qed.

(** The checks of a [let] or [also] link: those of the wrapper's
    constructor, then the [static_assert] of the operator. *)
Lemma pipe_let_accepted (lhs : operand_type) (L : Callable) :
  accepted (operator_pipe lhs (e_let L)) = true
  ↔ ty_core (op_ty lhs) ≠ TVoid
    ∧ ∃ p, c_params L = [p] ∧ base_type p = op_ty lhs ∧ ty_ref p ≠ RRef.
Proof.
  rewrite <- argument_style_checks. unfold operator_pipe, let_.ctor. split.
  - intros H. destruct (bool_decide (ty_core (op_ty lhs) = TVoid)) eqn:Hv;
      [discriminate|]. apply bool_decide_eq_false in Hv. split; [done|].
    destruct (LambdaReflection L) as [R|]; [|discriminate]. simpl in H.
    destruct (invocable L [argument_type R]) eqn:Hc; [|discriminate]. simpl in H.
    unfold pipe_let_lref, pipe_let_rref in H. simpl in H.
    destruct (is_same (op_ty lhs) (argument_type R)) eqn:Hs;
      [|by destruct (op_cat lhs)].
    apply is_same_true in Hs. exists R. rewrite Hs.
    split; [done|]. split; [by apply is_same_true|done].
  - intros (Hv & R & HR & Hs & Hc). rewrite bool_decide_eq_false_2 by done.
    rewrite HR. simpl. apply is_same_true in Hs. rewrite Hs, Hc. simpl.
    unfold pipe_let_lref, pipe_let_rref, is_same. simpl.
    rewrite bool_decide_eq_true_2 by done. by destruct (op_cat lhs).
Qed.

Lemma pipe_also_accepted (lhs : operand_type) (L : Callable) :
  accepted (operator_pipe lhs (e_also L)) = true
  ↔ ty_core (op_ty lhs) ≠ TVoid
    ∧ ∃ p, c_params L = [p] ∧ base_type p = op_ty lhs ∧ ty_ref p ≠ RRef.
Proof.
  rewrite <- argument_style_checks. unfold operator_pipe, also.ctor. split.
  - intros H. destruct (bool_decide (ty_core (op_ty lhs) = TVoid)) eqn:Hv;
      [discriminate|]. apply bool_decide_eq_false in Hv. split; [done|].
    destruct (LambdaReflection L) as [R|]; [|discriminate]. simpl in H.
    destruct (invocable L [argument_type R]) eqn:Hc; [|discriminate]. simpl in H.
    unfold pipe_also_lref, pipe_also_rref in H. simpl in H.
    destruct (is_same (op_ty lhs) (argument_type R)) eqn:Hs;
      [|by destruct (op_cat lhs)].
    apply is_same_true in Hs. exists R. rewrite Hs.
    split; [done|]. split; [by apply is_same_true|done].
  - intros (Hv & R & HR & Hs & Hc). rewrite bool_decide_eq_false_2 by done.
    rewrite HR. simpl. apply is_same_true in Hs. rewrite Hs, Hc. simpl.
    unfold pipe_also_lref, pipe_also_rref, is_same. simpl.
    rewrite bool_decide_eq_true_2 by done. by destruct (op_cat lhs).
Qed.

(** X1. The mixin's [let] and [also] compile for exactly the callables
    that declare one parameter whose qualifier-stripped type is the host
    type and that is not an rvalue reference ([T], [T&], [const T&] pass,
    [T&&] does not: the argument is the lvalue [*this]). *)
Theorem mixin_argument_style_accepts_iff (Base : ty) (L : Callable) :
  (accepted (ScopeFunctions.let_ Base L) = true
   ↔ ∃ p, c_params L = [p] ∧ base_type p = Base ∧ ty_ref p ≠ RRef)
  ∧ (accepted (ScopeFunctions.also Base L) = true
     ↔ ∃ p, c_params L = [p] ∧ base_type p = Base ∧ ty_ref p ≠ RRef).
Proof. split; [apply mixin_let_accepted | apply mixin_also_accepted]. Qed.

Lemma apply_accepted (L : Callable) :
  accepted (ScopeFunctions.apply L) = true ↔ (length (c_params L) ≤ c_defaults L)%nat.
Proof.
  rewrite <- invocable_nil. unfold ScopeFunctions.apply. by destruct (invocable L []).
Qed.


(** X3. No callable is accepted both by [let] or [also] and by [run] or
    [with], and a callable with two or more parameters is accepted by none
    of these.  The mixin's [apply] stands apart: of the callables that
    [let] and [also] accept it accepts those whose parameter has a default
    argument. *)
Theorem families_overlap_only_in_apply (Base : ty) (L : Callable) :
  let argument_style :=
    accepted (ScopeFunctions.let_ Base L) || accepted (ScopeFunctions.also Base L)
    || accepted (let_.ctor L) || accepted (also.ctor L) in
  let deduced_capture :=
    accepted (ScopeFunctions.run L) || accepted (run.ctor L)
    || accepted (with_.ctor L) in
  argument_style && deduced_capture = false
  ∧ ((2 ≤ length (c_params L))%nat →
       argument_style = false ∧ deduced_capture = false)
  ∧ (argument_style = true →
       accepted (ScopeFunctions.apply L) = bool_decide (1 ≤ c_defaults L)%nat).
Proof.
  cbv zeta.
  assert (Hone : ∀ p, c_params L = [p] →
            accepted (ScopeFunctions.apply L) = bool_decide (1 ≤ c_defaults L)%nat).
  { intros p Hp. apply eq_true_iff_eq. rewrite bool_decide_eq_true.
    destruct (apply_accepted L) as [H1 H2]. rewrite Hp in *.
    simpl in *. split; [apply H1 | apply H2]. }
  unfold ScopeFunctions.let_, ScopeFunctions.also, let_.ctor, also.ctor,
    ScopeFunctions.run, run.ctor, with_.ctor,
    LambdaReflection, LambdaReflectionNoArg, FuncType, FuncTypeNoArg,
    deduce_function.
  simpl. destruct (c_params L) as [|p [|q ps]] eqn:E; simpl.
  - split; [done|]. split; [lia|done].
  - split; [apply andb_false_r|]. split; [lia|]. intros _. by apply (Hone p).
  - done.
Qed.

Lemma families_overlap_only_in_apply_witness :
  (accepted (ScopeFunctions.let_ (plain TInt) tests.defaulted_pair)
   || accepted (ScopeFunctions.also (plain TInt) tests.defaulted_pair)
   || accepted (let_.ctor tests.defaulted_pair)
   || accepted (also.ctor tests.defaulted_pair)) = false
  ∧ (accepted (ScopeFunctions.run tests.defaulted_pair)
     || accepted (run.ctor tests.defaulted_pair)
     || accepted (with_.ctor tests.defaulted_pair)) = false
  ∧ accepted (ScopeFunctions.apply tests.defaulted_pair) = true
  ∧ accepted (ScopeFunctions.let_ (plain tests.person_t) (tests.defaulted_person 0)) = true
  ∧ accepted (ScopeFunctions.apply (tests.defaulted_person 0)) = true.
Proof.
  destruct (families_overlap_only_in_apply (plain TInt) tests.defaulted_pair)
    as (_ & Hnone & _).
  destruct (families_overlap_only_in_apply (plain tests.person_t)
              (tests.defaulted_person 0)) as (_ & _ & Hboth).
  destruct Hnone as [Harg Hcap]; [simpl; lia|].
  split; [exact Harg|]. split; [exact Hcap|]. split; [reflexivity|].
  split; [reflexivity|]. by rewrite Hboth.
Defined.


(** X5. A [const] or [volatile] context object cannot be chained into
    [let] or [also]: [T] is deduced with the qualifier and compared with
    the stripped parameter type, so the [static_assert] fails even for a
    callable that takes [const T&], whose stripped type is that of the
    object. *)
Theorem qualified_operand_is_rejected (lhs : operand_type) (L : Callable) (p : ty) :
  c_params L = [p] → ty_ref p ≠ RRef →
  ty_core (op_ty lhs) ≠ TVoid →
  ty_cv (op_ty lhs) ≠ unqualified →
  operator_pipe lhs (e_let L) = Rejected (StaticAssert let_message)
  ∧ operator_pipe lhs (e_also L) = Rejected (StaticAssert also_pipe_message).
Proof.
  intros Hp Href Hvoid Hcv.
  assert (HR : LambdaReflection L = Some {| return_type := base_type (c_ret L);
                                            argument_type := base_type p |}).
  { apply LambdaReflection_Some. by exists p. }
  assert (Hcall : invocable L [base_type p] = true).
  { rewrite (invocable_one L p _ Hp). by apply accepts_own_base_type. }
  assert (Hne : op_ty lhs ≠ base_type p).
  { intros Heq. apply Hcv. by rewrite Heq. }
  unfold operator_pipe, let_.ctor, also.ctor.
  rewrite bool_decide_eq_false_2 by done. rewrite HR. simpl. rewrite Hcall. simpl.
  unfold pipe_let_lref, pipe_let_rref, pipe_also_lref, pipe_also_rref, is_same.
  simpl. rewrite !bool_decide_eq_false_2 by done. by destruct (op_cat lhs).
Qed.

Lemma qualified_operand_is_rejected_witness :
  let const_person := Ty NoRef (CV true false) tests.person_t in
  let reader := {| c_id := 0; c_params := [Ty LRef (CV true false) tests.person_t];
                   c_defaults := 0;
                   c_ret := plain TVoid;
                   c_body := fun _ h => (Return (ByValue VVoid), h) |} in
  base_type (Ty LRef (CV true false) tests.person_t) = base_type const_person
  ∧ operator_pipe {| op_cat := lvalue; op_ty := const_person |} (e_let reader)
    = Rejected (StaticAssert let_message)
  ∧ operator_pipe {| op_cat := lvalue; op_ty := const_person |} (e_also reader)
    = Rejected (StaticAssert also_pipe_message).
Proof.
  intros const_person reader. split; [reflexivity|].
  apply (qualified_operand_is_rejected
           {| op_cat := lvalue; op_ty := const_person |} reader
           (Ty LRef (CV true false) tests.person_t));
    [reflexivity | discriminate | discriminate | discriminate].
Defined.

(** ** The mixin and the chaining operator side by side *)





(** ** Whole chains *)

Lemma bound_link_calls rhs x st :
  (∀ L, rhs ≠ e_with L) →
  ∃ args,
    calls (snd ((c <- bind_reference x ;; link_run rhs c) st))
      = calls st ++ [(c_id (callee rhs), args)].
Proof.
  intros Hw. apply (after_bind_reference (callee rhs) x (link_run rhs)).
  intros c st'. exists (link_args rhs c). by apply link_run_calls.
Qed.

(** X8. A chain calls the callables of its links in the order the links
    are written, one call each; a call that fails ends the chain, so the
    links after it make no call; and a chain that ends normally has called
    every one of them. *)
Theorem chain_calls_in_order (p : pipeline) : ∀ T m,
  compile p = Accepted (T, m) →
  ∀ st, ∃ added n,
    calls (snd (m st)) = calls st ++ added
    ∧ map fst added = take n (link_ids p)
    ∧ (∀ x, fst (m st) = Ok x → map fst added = link_ids p).
Proof.
  induction p as [T0 l|T0 v|p IH rhs]; intros T m H st.
  - simpl in H. injection H as <- <-. exists [], 0. simpl.
    by rewrite app_nil_r.
  - simpl in H. injection H as <- <-. exists [], 0. simpl.
    by rewrite app_nil_r.
  - apply compile_Pipe in H as (T0 & m0 & step & H0 & Hstep & ->).
    assert (Hw : ∀ L, rhs ≠ e_with L).
    { intros L ->. by apply operator_pipe_type in Hstep. }
    destruct (IH _ _ H0 st) as (added0 & n0 & Hcalls & Hpre & Hfull).
    unfold link_ids in *. simpl links. rewrite map_app. simpl.
    destruct (m0 st) as [[x|e|] st0] eqn:E; simpl in *.
    + rewrite (bind_Ok _ _ _ _ _ E), (operator_pipe_step _ _ _ _ Hstep).
      destruct (bound_link_calls rhs x st0 Hw) as [args Hargs].
      exists (added0 ++ [(c_id (callee rhs), args)]), (S (length (links p))).
      split; [by rewrite Hargs, Hcalls, <- app_assoc|].
      assert (Hm : map fst (added0 ++ [(c_id (callee rhs), args)])
                   = map (fun e => c_id (callee e)) (links p) ++ [c_id (callee rhs)]).
      { rewrite map_app. f_equal. exact (Hfull x eq_refl). }
      split; [|by intros].
      rewrite Hm, take_ge; [done|].
      rewrite length_app, length_map. simpl. lia.
    + rewrite (bind_Raised _ _ _ _ _ E). simpl.
      exists added0, (n0 `min` length (links p))%nat.
      rewrite Hpre. split; [done|]. split; [apply take_min_snoc|done].
    + rewrite (bind_Undefined _ _ _ _ E). simpl.
      exists added0, (n0 `min` length (links p))%nat.
      rewrite Hpre. split; [done|]. split; [apply take_min_snoc|done].
Qed.

Lemma chain_calls_in_order_witness :
  ∃ T m, compile tests.mixing_chain = Accepted (T, m) ∧
    ∃ added n,
      calls (snd (m tests.empty_state)) = calls tests.empty_state ++ added
      ∧ map fst added = take n (link_ids tests.mixing_chain)
      ∧ (∀ x, fst (m tests.empty_state) = Ok x →
           map fst added = link_ids tests.mixing_chain).
Proof.
  eexists _, _. split; [reflexivity|].
  eapply (chain_calls_in_order tests.mixing_chain). reflexivity.
Defined.

(** The [T&] and the [T&&] overload of each operator have the same body:
    the category of the left operand changes nothing. *)
Lemma operator_pipe_overloads_agree (c1 c2 : category) (T : ty) (rhs : scope_expr) :
  operator_pipe {| op_cat := c1; op_ty := T |} rhs
  = operator_pipe {| op_cat := c2; op_ty := T |} rhs.
Proof. by destruct c1, c2. Qed.

Lemma temporary_chain_tail (T : ty) (v : value) (e : scope_expr) (rest : list scope_expr) :
  ∀ T' m,
    compile (fold_left Pipe rest (Pipe (Tmp T v) e)) = Accepted (T', m) →
    ∃ m' : loc → M operand,
      (∀ l, compile (fold_left Pipe rest (Pipe (Var T l) e)) = Accepted (T', m' l))
      ∧ ∀ st, m st = m' (length (heap st))
                       {| heap := heap st ++ [v]; calls := calls st |}.
Proof.
  induction rest as [|e' rest IH] using rev_ind; intros T' m H.
  - simpl in H.
    destruct (operator_pipe {| op_cat := rvalue; op_ty := T |} e) as [[T1 step]|] eqn:E;
      [|discriminate].
    simpl in H. injection H as <- <-.
    exists (fun l => x <- ret (AtLoc l) ;; step x). split.
    + intros l. simpl.
      rewrite (operator_pipe_overloads_agree lvalue rvalue), E. reflexivity.
    + intros st. rewrite (bind_Ok _ _ st (Temp v) st) by reflexivity.
      rewrite (bind_Ok _ _ _ (AtLoc (length (heap st))) _) by reflexivity.
      by rewrite !(operator_pipe_step _ _ _ _ E).
  - rewrite fold_left_app in H. simpl in H.
    apply compile_Pipe in H as (T0 & m0 & step & H0 & Hstep & ->).
    destruct (IH _ _ H0) as (m0' & Hc & Hrun).
    exists (fun l => x <- m0' l ;; step x). split.
    + intros l. rewrite fold_left_app. simpl. rewrite (Hc l). simpl.
      by rewrite Hstep.
    + intros st. unfold bind. by rewrite Hrun.
Qed.

(** X9. A chain with at least one link started on a temporary is the same
    chain started on a variable that holds the temporary's value: it
    compiles with the same type, and running it creates that one object,
    at the first link, and then runs as the chain on that object does. *)
Theorem temporary_chain_is_variable_chain (T : ty) (v : value) (es : list scope_expr)
    (T' : operand_type) (m : M operand) :
  es ≠ [] →
  compile (chain_on_temporary T v es) = Accepted (T', m) →
  ∃ m' : loc → M operand,
    (∀ l, compile (chain T l es) = Accepted (T', m' l))
    ∧ ∀ st, m st = m' (length (heap st))
                     {| heap := heap st ++ [v]; calls := calls st |}.
Proof.
  intros Hne H. destruct es as [|e rest]; [done|].
  by apply (temporary_chain_tail T v e rest).
Qed.

Lemma temporary_chain_is_variable_chain_witness :
  ∃ T' m (m' : loc → M operand),
    compile tests.mixing_chain = Accepted (T', m)
    ∧ (∀ l, compile (chain (plain tests.vector_int) l
                       [e_let tests.push_back_4; e_let tests.max_of;
                        e_also tests.double_it]) = Accepted (T', m' l))
    ∧ ∀ st, m st = m' (length (heap st))
                     {| heap := heap st ++ [VVector [1; 2; 3]%Z]; calls := calls st |}.
Proof.
  eexists _, _.
  destruct (temporary_chain_is_variable_chain (plain tests.vector_int)
              (VVector [1; 2; 3]%Z)
              [e_let tests.push_back_4; e_let tests.max_of; e_also tests.double_it]
              _ _ ltac:(discriminate) eq_refl) as (m' & Hc & Hrun).
  exists m'. split; [reflexivity|]. split; [exact Hc | exact Hrun].
Defined.

(** X10. A [let] or [run] link whose callable returns [void] ends the
    chain: its result has type [void], and no overload of the chaining
    operator can be deduced for such a left operand. *)
Theorem void_result_ends_chain (p : pipeline) (rhs next : scope_expr)
    (T : operand_type) (m : M operand) :
  (rhs = e_let (callee rhs) ∨ rhs = e_run (callee rhs)) →
  ty_core (c_ret (callee rhs)) = TVoid →
  compile (Pipe p rhs) = Accepted (T, m) →
  compile (Pipe (Pipe p rhs) next) = Rejected NoMatchingOperator.
Proof.
  intros Hrhs Hvoid H.
  pose proof H as H'. apply compile_Pipe in H' as (T0 & m0 & step & _ & Hstep & _).
  apply operator_pipe_type in Hstep.
  assert (HT : T = {| op_cat := rvalue; op_ty := base_type (c_ret (callee rhs)) |}).
  { destruct Hrhs as [E|E]; rewrite E in Hstep; exact Hstep. }
  change (compile (Pipe (Pipe p rhs) next))
    with (lhs <~ compile (Pipe p rhs) ;;
          step <~ operator_pipe (fst lhs) next ;;
          Accepted (fst step, x <- snd lhs ;; snd step x)).
  rewrite H. simpl. unfold operator_pipe. rewrite HT. simpl.
  by rewrite bool_decide_eq_true_2.
Qed.

Lemma void_result_ends_chain_witness :
  compile (Pipe (Pipe (Var (plain tests.person_t) 0) (e_let tests.it_clear_location))
                (e_also tests.it_clear_location))
  = Rejected NoMatchingOperator.
Proof.
  eapply (void_result_ends_chain (Var (plain tests.person_t) 0)
            (e_let tests.it_clear_location) (e_also tests.it_clear_location));
    [by left | reflexivity | reflexivity].
Defined.

(** ** [with], once more *)

(** X11. Calling a [with] object after its construction runs the callable
    a second time, on the store the first run left: the value obtained is
    the one the second run returns, and the log holds two calls. *)
Theorem with_call_runs_again (L : Callable) :
  c_params L = [] →
  ∃ m, with_.ctor L = Accepted m ∧
    ∀ st v h v' h',
      c_body L [] (heap st) = (Return (ByValue v), h) →
      c_body L [] h = (Return (ByValue v'), h') →
      (w <- m ;; with_.operator_call w) st =
        (Ok v', {| heap := h'; calls := calls st ++ [(c_id L, []); (c_id L, [])] |}).
Proof.
  intros Hp.
  destruct (with_ctor_runs_at_construction L Hp) as (m & Hm & _ & Hrun).
  exists m. split; [exact Hm|]. intros st v h v' h' H1 H2.
  rewrite (bind_Ok _ _ _ _ _ (Hrun st v h H1)).
  unfold with_.operator_call. run_monad. rewrite H2. unfold logged. simpl.
  by rewrite <- app_assoc.
Qed.

Lemma with_call_runs_again_witness :
  ∃ m, with_.ctor (tests.capture_clear_name 0) = Accepted m ∧
    (w <- m ;; with_.operator_call w) tests.one_person =
      (Ok VVoid, {| heap := [VPerson (tests.clear_name tests.alice)];
                    calls := [(5, []); (5, [])] |}).
Proof.
  destruct (with_call_runs_again (tests.capture_clear_name 0) eq_refl)
    as (m & Hm & Hrun).
  exists m. split; [exact Hm|].
  apply (Hrun tests.one_person VVoid [VPerson (tests.clear_name tests.alice)]
           VVoid [VPerson (tests.clear_name tests.alice)]); reflexivity.
Defined.

(** ** The macros *)

Import scopefnmacros.

(** X12. [x | LET(x, ...)] and [x | ALSO(x, ...)], the macro given the
    variable it is applied to, compile exactly when [x] is declared
    without [const] and [volatile]; the block then runs once, on [x]
    itself. *)
Theorem macro_on_its_own_variable (id : nat) (x : ty) (rt : obj_ty) (y : block) (l : loc) :
  ty_core x ≠ TVoid →
  (accepted (compile (Pipe (Var (remove_reference x) l) (LET id x rt y))) = true
   ↔ ty_cv x = unqualified)
  ∧ (accepted (compile (Pipe (Var (remove_reference x) l) (ALSO id x rt y))) = true
     ↔ ty_cv x = unqualified)
  ∧ (∀ e T m, e = LET id x rt y ∨ e = ALSO id x rt y →
       compile (Pipe (Var (remove_reference x) l) e) = Accepted (T, m) →
       ∀ st, calls (snd (m st)) = calls st ++ [(id, [l])]
             ∧ heap (snd (m st)) = snd (y l (heap st))).
Proof.
  intros Hv.
  assert (Hshape : ∀ p : ty,
            ([decltype_ref x] = [p] ∧ base_type p = remove_reference x ∧ ty_ref p ≠ RRef)
            ↔ (p = decltype_ref x ∧ ty_cv x = unqualified)).
  { intros p. split.
    - intros ([= <-] & Hb & _). split; [done|].
      unfold base_type, remove_cv, remove_reference, decltype_ref in Hb. simpl in Hb.
      by injection Hb.
    - intros (-> & Hcv). repeat split; [|done].
      unfold base_type, remove_cv, remove_reference, decltype_ref. simpl.
      by rewrite Hcv. }
  assert (Hacc : ∀ e, e = LET id x rt y ∨ e = ALSO id x rt y →
            accepted (compile (Pipe (Var (remove_reference x) l) e))
            = accepted (operator_pipe
                          {| op_cat := lvalue; op_ty := remove_reference x |} e)).
  { intros e _. simpl.
    by destruct (operator_pipe {| op_cat := lvalue; op_ty := remove_reference x |} e)
      as [[? ?]|]. }
  split; [|split].
  - rewrite Hacc by auto. unfold LET. rewrite pipe_let_accepted. simpl. split.
    + intros (_ & p & Hp). by apply Hshape in Hp as [_ ?].
    + intros Hcv. split; [done|]. exists (decltype_ref x). by apply Hshape.
  - rewrite Hacc by auto. unfold ALSO. rewrite pipe_also_accepted. simpl. split.
    + intros (_ & p & Hp). by apply Hshape in Hp as [_ ?].
    + intros Hcv. split; [done|]. exists (decltype_ref x). by apply Hshape.
  - intros e T m He H st.
    apply compile_Pipe in H as (T0 & m0 & step & H0 & Hstep & ->).
    simpl in H0. injection H0 as <- <-.
    rewrite (bind_Ok _ _ st (AtLoc l) st) by reflexivity.
    rewrite (operator_pipe_step _ _ _ _ Hstep).
    destruct He as [-> | ->]; unfold LET, ALSO; run_monad.
    + destruct (y l (heap st)) as [[[v|l0]|e|] h]; simpl; try done.
      unfold load; simpl. by destruct (h !! l0).
    + by destruct (y l (heap st)) as [[r|e|] h].
Qed.

Lemma macro_on_its_own_variable_witness :
  let push : block := fun it h => c_body tests.push_back_4 [it] h in
  accepted (compile (Pipe (Var (plain tests.vector_int) 0)
                          (LET 1 (plain tests.vector_int) tests.vector_int push))) = true
  ∧ accepted (compile (Pipe (Var (Ty NoRef (CV true false) tests.vector_int) 0)
                            (LET 1 (Ty NoRef (CV true false) tests.vector_int)
                                 tests.vector_int push))) = false.
Proof.
  intros push. split.
  - apply (macro_on_its_own_variable 1 (plain tests.vector_int) tests.vector_int push 0);
      [discriminate | reflexivity].
  - apply not_true_is_false. intros H.
    apply (macro_on_its_own_variable 1 (Ty NoRef (CV true false) tests.vector_int)
             tests.vector_int push 0) in H; [discriminate H | discriminate].
Defined.

(** X13. The block of [APPLY(x, ...)] and of [RUN(x, ...)] acts on the
    object [x] that the macro captured, not on the object the scope
    function is applied to: [h.APPLY(x, ...)] compiles, runs the block on
    [x], and returns [h]; [o | RUN(x, ...)] runs the block on [x] whatever
    [o] is. *)
Theorem capture_macros_act_on_the_captured_object (id : nat) (x : loc)
    (rt : obj_ty) (y : block) :
  (∃ m, APPLY id x rt y = Accepted m ∧
     ∀ this st,
       snd (m this st) = {| heap := snd (y x (heap st));
                            calls := calls st ++ [(id, [])] |}
       ∧ (∀ r, fst (y x (heap st)) = Return r → fst (m this st) = Ok this))
  ∧ (∀ cat T, ty_core T ≠ TVoid →
       ∃ T' step,
         operator_pipe {| op_cat := cat; op_ty := T |} (RUN id x rt y)
           = Accepted (T', step) ∧
         ∀ o st, heap (snd (step (AtLoc o) st)) = snd (y x (heap st))).
Proof.
  split.
  - eexists. split; [reflexivity|]. intros this st. cbv beta.
    rewrite discarding_call. simpl.
    by destruct (y x (heap st)) as [[r|e|] h].
  - intros cat T Hv. unfold RUN, operator_pipe. simpl.
    rewrite bool_decide_eq_false_2 by done. simpl.
    destruct cat; simpl; eexists _, _; (split; [reflexivity|]); intros o st;
      unfold run.operator_call; run_monad;
      destruct (y x (heap st)) as [[[v|l0]|e|] h]; simpl; try done;
      unfold load; simpl; by destruct (h !! l0).
Qed.

Lemma capture_macros_act_on_the_captured_object_witness :
  ∃ T' step,
    operator_pipe {| op_cat := lvalue; op_ty := plain TString |}
      (RUN 7 0 TVoid (fun self h => c_body (tests.capture_clear_name self) [] h))
      = Accepted (T', step) ∧
    ∀ o st, heap (snd (step (AtLoc o) st))
            = snd (c_body (tests.capture_clear_name 0) [] (heap st)).
Proof.
  destruct (capture_macros_act_on_the_captured_object 7 0 TVoid
              (fun self h => c_body (tests.capture_clear_name self) [] h))
    as [_ Hrun].
  apply (Hrun lvalue (plain TString)). discriminate.
Defined.

(** [CrazyMacrosTest], first part. *)
Example crazy_macros_yield_8 :
  ∃ T m,
    compile
      (Pipe (Pipe (Pipe (Var (plain tests.vector_int) 0)
                        (LET 1 (plain tests.vector_int) tests.vector_int
                           (fun it h => c_body tests.push_back_4 [it] h)))
                  (LET 2 (plain tests.vector_int) TInt
                     (fun it h =>
                        match h !! it with
                        | Some (VVector l) =>
                            match tests.max_element l with
                            | Some z => (Return (ByValue (VInt z)), h)
                            | None => (Undef, h)
                            end
                        | _ => (Return (ByValue VVoid), h)
                        end)))
            (ALSO 3 (plain TInt) TVoid
               (fun it h =>
                  match h !! it with
                  | Some (VInt z) => (Return (ByValue VVoid), <[it := VInt (z * 2)]> h)
                  | _ => (Return (ByValue VVoid), h)
                  end)))
      = Accepted (T, m)
    ∧ fst ((x <- m ;; value_of x) {| heap := [VVector [1; 2; 3]%Z]; calls := [] |})
      = Ok (VInt 8).
Proof. eexists _, _. split; reflexivity. Qed.

(** ** Chains of [let] *)

(** X16. A chain of [let] links whose callables compute functions of
    their argument and change nothing yields the functions applied one
    after the other, first link first, to the starting value. *)
Theorem let_chain_composes (T : ty) (v : value) (Ls : list Callable)
    (fs : list (value → value)) : ∀ T' m,
  Forall2 computes Ls fs →
  compile (chain_on_temporary T v (map e_let Ls)) = Accepted (T', m) →
  ∀ st, ∃ st', m st = (Ok (Temp (fold_left (fun acc f => f acc) fs v)), st').
Proof.
  revert fs. induction Ls as [|L Ls IH] using rev_ind; intros fs T' m Hfs H st.
  - apply Forall2_nil_inv_l in Hfs as ->. simpl in H. injection H as <- <-.
    by exists st.
  - apply Forall2_app_inv_l in Hfs as (fs1 & fs2 & Hfs1 & Hf & ->).
    apply Forall2_cons_inv_l in Hf as (f & fs3 & Hf & Hnil & ->).
    apply Forall2_nil_inv_l in Hnil as ->.
    unfold chain_on_temporary in *. rewrite map_app, fold_left_app in H. simpl in H.
    apply compile_Pipe in H as (T0 & m0 & step & H0 & Hstep & ->).
    destruct (IH _ _ _ Hfs1 H0 st) as (st0 & Hm0).
    rewrite (bind_Ok _ _ _ _ _ Hm0), (operator_pipe_step _ _ _ _ Hstep).
    rewrite fold_left_app. simpl.
    set (v0 := fold_left (fun acc f0 => f0 acc) fs1 v) in *.
    run_monad.
    rewrite (Hf (length (heap st0)) (heap st0 ++ [v0]) v0)
      by apply list_lookup_middle, eq_refl.
    simpl. eauto.
Qed.

Lemma let_chain_composes_witness :
  ∃ T' m,
    compile (chain_on_temporary (plain TInt) (VInt 123)
               (map e_let [tests.to_string; tests.size_of])) = Accepted (T', m)
    ∧ tests.size_fn (tests.to_string_fn (VInt 123)) = VUnsigned 3
    ∧ ∀ st, ∃ st', m st = (Ok (Temp (VUnsigned 3)), st').
Proof.
  eexists _, _. split; [reflexivity|]. split; [reflexivity|].
  assert (Hfs : Forall2 computes [tests.to_string; tests.size_of]
                  [tests.to_string_fn; tests.size_fn]).
  { constructor; [|constructor; [|constructor]].
    - intros l h v Hl. simpl. by rewrite Hl.
    - intros l h v Hl. simpl. by rewrite Hl. }
  exact (let_chain_composes (plain TInt) (VInt 123)
           [tests.to_string; tests.size_of] [tests.to_string_fn; tests.size_fn]
           _ _ Hfs eq_refl).
Defined.

(** ** The test entities *)

(** X14. [Person::operator==] holds exactly between persons with the same
    name, location and age, that is between equal persons. *)
Theorem person_eqb_iff_equal (p other : testentities.Person) :
  testentities.eqb p other = true ↔ p = other.
Proof.
  unfold testentities.eqb. destruct p as [n l a], other as [n' l' a']. simpl.
  split.
  - intros H.
    destruct (decide (n = n')) as [->|Hn];
      [|by rewrite (bool_decide_eq_true_2 (n ≠ n')) in H].
    destruct (decide (l = l')) as [->|Hl];
      [|by rewrite (bool_decide_eq_true_2 (l ≠ l')), orb_true_r in H].
    destruct (decide (a = a')) as [->|Ha];
      [|by rewrite (bool_decide_eq_true_2 (a ≠ a')), orb_true_r in H].
    done.
  - intros [= -> -> ->]. by rewrite !bool_decide_eq_false_2 by (intros ?; done).
Qed.

(** X15. [operator==] of the entity with children compares the number of
    children and not the children: it holds exactly between persons with
    the same name, location, age and number of children, so it also holds
    between persons whose children differ. *)
Theorem person_with_children_eqb_iff (p other : testentities_children.Person) :
  testentities_children.eqb p other = true
  ↔ testentities_children.name p = testentities_children.name other
    ∧ testentities_children.location p = testentities_children.location other
    ∧ testentities_children.age p = testentities_children.age other
    ∧ length (testentities_children.children p)
      = length (testentities_children.children other).
Proof.
  unfold testentities_children.eqb.
  destruct p as [n l c a], other as [n' l' c' a']. simpl. split.
  - intros H.
    destruct (decide (n = n')) as [->|Hn];
      [|by rewrite (bool_decide_eq_true_2 (n ≠ n')) in H].
    destruct (decide (l = l')) as [->|Hl];
      [|by rewrite (bool_decide_eq_true_2 (l ≠ l')), orb_true_r in H].
    destruct (decide (a = a')) as [->|Ha];
      [|by rewrite (bool_decide_eq_true_2 (a ≠ a')), !orb_true_r in H].
    destruct (decide (length c = length c')) as [Hc|Hc];
      [|by rewrite (bool_decide_eq_true_2 (length c ≠ length c')), !orb_true_r in H].
    done.
  - intros (-> & -> & -> & Hc).
    by rewrite !bool_decide_eq_false_2 by (intros ?; done).
Qed.

(** Two persons that differ (one has a child named Bob, the other a
    child named Eve) and compare equal. *)
Example children_are_not_compared :
  let bob := testentities_children.MkPerson "Bob" "Paris" [] 3%Z in
  let eve := testentities_children.MkPerson "Eve" "Rome" [] 5%Z in
  let p := testentities_children.MkPerson "Alice" "London" [bob] 20%Z in
  let q := testentities_children.MkPerson "Alice" "London" [eve] 20%Z in
  p ≠ q ∧ testentities_children.eqb p q = true.
Proof. split; [discriminate | reflexivity]. Qed.

(** ** [also] on a temporary *)

(** X17. A chain of [also] links started on a temporary creates one
    object and every link calls its callable on that object; the chain
    returns a reference to it. *)
Theorem also_chain_on_temporary (T : ty) (v : value) (Ls : list Callable)
    (T' : operand_type) (m : M operand) :
  Ls ≠ [] →
  compile (chain_on_temporary T v (map e_also Ls)) = Accepted (T', m) →
  ∀ st, ∃ n,
    calls (snd (m st))
      = calls st ++ take n (map (fun L => (c_id L, [length (heap st)])) Ls)
    ∧ (∀ x, fst (m st) = Ok x →
         x = AtLoc (length (heap st)) ∧ (length Ls ≤ n)%nat).
Proof.
  intros Hne H st. destruct Ls as [|L Ls]; [done|].
  apply (temporary_chain_tail T v (e_also L) (map e_also Ls)) in H
    as (m' & Hc & Hrun).
  specialize (Hc (length (heap st))).
  apply (also_chain_stays T (length (heap st)) (L :: Ls)) in Hc as (_ & Hobs & Hat).
  destruct (Hobs {| heap := heap st ++ [v]; calls := calls st |}) as (n & Hn & Hfull).
  exists n. rewrite Hrun, Hn. simpl calls. split.
  - f_equal. f_equal. by rewrite map_map.
  - intros x Hx. split; [by apply (Hat _ _ Hx)|].
    specialize (Hfull x Hx). by rewrite length_map in Hfull.
Qed.

Lemma also_chain_on_temporary_witness :
  ∃ T' m,
    compile (chain_on_temporary (plain tests.person_t) (VPerson tests.alice)
               (map e_also [tests.it_clear_location; tests.birthday_ref]))
      = Accepted (T', m)
    ∧ m tests.empty_state =
        (Ok (AtLoc 0),
         {| heap := [VPerson (tests.set_age 30%Z (tests.clear_location tests.alice))];
            calls := [(6, [0]); (8, [0])] |})
    ∧ ∃ n,
        calls (snd (m tests.empty_state))
          = calls tests.empty_state
            ++ take n (map (fun L => (c_id L, [length (heap tests.empty_state)]))
                           [tests.it_clear_location; tests.birthday_ref])
        ∧ (∀ x, fst (m tests.empty_state) = Ok x →
             x = AtLoc (length (heap tests.empty_state)) ∧ (2 ≤ n)%nat).
Proof.
  eexists _, _. split; [reflexivity|]. split; [reflexivity|].
  eapply (also_chain_on_temporary (plain tests.person_t) (VPerson tests.alice)
            [tests.it_clear_location; tests.birthday_ref]);
    [discriminate | reflexivity].
Defined.

(** ** The equivalences, at the callables and persons of the tests *)

Lemma mixin_argument_style_accepts_iff_witness :
  accepted (ScopeFunctions.let_ (plain tests.person_t) tests.birthday_ref) = true
  ∧ accepted (ScopeFunctions.also (plain tests.person_t) tests.it_clear_location) = true.
Proof.
  split.
  - apply (proj1 (mixin_argument_style_accepts_iff (plain tests.person_t)
                    tests.birthday_ref)).
    exists (tests.lref tests.person_t). repeat split. discriminate.
  - apply (proj2 (mixin_argument_style_accepts_iff (plain tests.person_t)
                    tests.it_clear_location)).
    exists (tests.lref tests.person_t). repeat split. discriminate.
Defined.



Lemma person_eqb_iff_equal_witness :
  testentities.eqb (testentities.moveTo tests.alice "London") tests.alice = true.
Proof.
  by apply (person_eqb_iff_equal (testentities.moveTo tests.alice "London") tests.alice).
Defined.

Lemma person_with_children_eqb_iff_witness :
  testentities_children.eqb
    (testentities_children.MkPerson "Alice" "London"
       [testentities_children.MkPerson "Bob" "Paris" [] 3%Z] 20%Z)
    (testentities_children.MkPerson "Alice" "London"
       [testentities_children.MkPerson "Eve" "Rome" [] 5%Z] 20%Z) = true.
Proof.
  by apply (person_with_children_eqb_iff
              (testentities_children.MkPerson "Alice" "London"
                 [testentities_children.MkPerson "Bob" "Paris" [] 3%Z] 20%Z)
              (testentities_children.MkPerson "Alice" "London"
                 [testentities_children.MkPerson "Eve" "Rome" [] 5%Z] 20%Z)).
Defined.
